(** * Popup / redirect event router of auth-ts

    A shallow embedding of
    [packages/auth-ts/src/core/abstract_popup_redirect_resolver.ts]
    (class [AbstractPopupRedirectResolver]) together with the collaborators
    it talks to, and the properties of the event router proved about it.

    The class is stateful and asynchronous.  Its methods are embedded as
    computations of a small state-and-exception monad over a [World] that
    holds the resolver's fields, the promise store, the host platform and a
    trace of every call that crosses the resolver's boundary.  An [await]
    is a sequence point; a call whose promise is dropped leaves a job in
    flight that is completed by a later turn of the host. *)

From Stdlib Require Import Ascii.
From stdpp Require Import base option list strings gmap.
From stdpp Require Import sorting.

(** ** Data model *)

(** Modelled from the spec: [model/auth_event.ts] is not part of the sources;
    the seven enumerants are those of the spec's data model. *)
Inductive AuthEventType :=
| SIGN_IN_VIA_POPUP
| SIGN_IN_VIA_REDIRECT
| LINK_VIA_POPUP
| LINK_VIA_REDIRECT
| REAUTH_VIA_POPUP
| REAUTH_VIA_REDIRECT
| UNKNOWN.

#[global] Instance AuthEventType_eq_dec : EqDecision AuthEventType.
Proof. solve_decision. Defined.

(** [AuthErrorCode] of [core/errors.ts]; the resolver only creates
    [INTERNAL_ERROR]. *)
Inductive AuthErrorCode := INTERNAL_ERROR.

(** Values that travel as errors: those built by [AUTH_ERROR_FACTORY.create]
    and any other error carried by an event or thrown by a task. *)
Inductive Error :=
| AuthError (code : AuthErrorCode) (appName : string)
| ForeignError (message : string).

(** Modelled from the spec: the credential is opaque to the router. *)
Record UserCredential := { credentialOf : string }.

(** Modelled from the spec: a local user session; only [redirectEventId_]
    is read by the router. *)
Record User := { uid : string; redirectEventId_ : option string }.

(** Modelled from the spec: the auth context.  [getPotentialRedirectUsers_()]
    is the query of the user-session host, which the router only reads. *)
Record Auth := { appName : string; getPotentialRedirectUsers_ : list User }.

Record AuthProvider := { providerId : string }.

#[global] Instance User_eq_dec : EqDecision User.
Proof. solve_decision. Defined.

#[global] Instance Auth_eq_dec : EqDecision Auth.
Proof. solve_decision. Defined.

#[global] Instance AuthProvider_eq_dec : EqDecision AuthProvider.
Proof. solve_decision. Defined.

Module AuthEvent.

(** Modelled from the spec: the shape of one inbound notification.  Optional
    and nullable members are [option]s. *)
Record t := {
  type : AuthEventType;
  eventId : option string;
  urlResponse : option string;
  sessionId : option string;
  postBody : option string;
  tenantId : option string;
  error : option Error
}.

End AuthEvent.

Module IdpTaskParams.

(** [idp.IdpTaskParams] as built by [execIdpTask]. *)
Record t := {
  requestUri : option string;
  sessionId : option string;
  auth : Auth;
  tenantId : option string;
  postBody : option string;
  user : option User
}.

End IdpTaskParams.

(** The three task functions of [strategies/idp]: [idp.signIn], [idp.link]
    and [idp.reauth]. *)
Inductive IdpTask := signIn | link | reauth.

(** Modelled from the spec: [AuthPopup] of [core/util/popup.ts], the handle
    of an opened window, tagged with the [eventId] of its flow. *)
Record AuthPopup := { associatedEvent : option string }.

(** JavaScript's [x || null] and [x || undefined] on an optional string: the
    empty string is falsy. *)
Definition orAbsent (x : option string) : option string :=
  match x with
  | Some EmptyString => None
  | other => other
  end.

(** ** Promises *)

Definition PromiseId := nat.

Inductive PromiseState :=
| Pending
| Resolved (cred : option UserCredential)
| Rejected (e : Error).

(** Resolving or rejecting a promise that is already settled does nothing. *)
Definition settle (p : PromiseId) (s : PromiseState)
    (store : gmap nat PromiseState) : gmap nat PromiseState :=
  match store !! p with
  | Some Pending => <[p := s]> store
  | _ => store
  end.

(** The state a settlement with [(cred, error)] gives: rejected when an
    error is provided, resolved with [cred] otherwise. *)
Definition outcomeOf (cred : option UserCredential) (error : option Error)
    : PromiseState :=
  match error with
  | Some e => Rejected e
  | None => Resolved cred
  end.

(** ** Outcome handlers *)

(** Modelled from the spec: the interface [PopupRedirectOutcomeHandler] of
    [model/popup_redirect_resolver.ts], which is not part of the sources.
    The source call is
    [broadcastResult(cred, error?)]; the first argument here is the [eventId]
    of the event being processed, by which the spec has the popup variant
    pick its pending operation. *)
Class PopupRedirectOutcomeHandler (H : Type) := {
  broadcastResult :
    option string -> option UserCredential -> option Error ->
    H -> gmap nat PromiseState -> H * gmap nat PromiseState
}.

(** Modelled from the spec: [strategies/popup.ts] ([PopupResultManager]) is
    not part of the sources.  Pending operations are keyed by [eventId] and
    several may coexist. *)
Record PopupResultManager := {
  popupPending : gmap (option string) PromiseId
}.

(** Modelled from the spec: [strategies/redirect.ts] ([RedirectManager]) is
    not part of the sources.  At most one pending operation exists;
    [redirectResult] is the promise handed to callers, which stays available
    after it has settled. *)
Record RedirectManager := {
  redirectPending : option PromiseId;
  redirectResult : option PromiseId
}.

(** Modelled from the spec: [broadcastResult] of the popup variant settles the
    one pending operation whose [eventId] matches the event being processed
    and removes it. *)
Definition popupBroadcastResult (processing : option string)
    (cred : option UserCredential) (error : option Error)
    (h : PopupResultManager) (store : gmap nat PromiseState)
    : PopupResultManager * gmap nat PromiseState :=
  match popupPending h !! processing with
  | Some p =>
      ({| popupPending := delete processing (popupPending h) |},
       settle p (outcomeOf cred error) store)
  | None => (h, store)
  end.

(** Modelled from the spec: [isMatchingEvent] of the popup variant is true iff
    a pending operation with that [eventId] exists and is unsettled. *)
Definition popupIsMatchingEvent (id : option string)
    (h : PopupResultManager) (store : gmap nat PromiseState) : bool :=
  match popupPending h !! id with
  | Some p =>
      match store !! p with
      | Some Pending => true
      | _ => false
      end
  | None => false
  end.

(** Modelled from the spec: [broadcastResult] of the redirect variant settles
    the singleton pending operation, which is removed by its settlement. *)
Definition redirectBroadcastResult (processing : option string)
    (cred : option UserCredential) (error : option Error)
    (h : RedirectManager) (store : gmap nat PromiseState)
    : RedirectManager * gmap nat PromiseState :=
  match redirectPending h with
  | Some p =>
      ({| redirectPending := None; redirectResult := redirectResult h |},
       settle p (outcomeOf cred error) store)
  | None => (h, store)
  end.

#[global] Instance PopupResultManager_handler
    : PopupRedirectOutcomeHandler PopupResultManager :=
  {| broadcastResult := popupBroadcastResult |}.

#[global] Instance RedirectManager_handler
    : PopupRedirectOutcomeHandler RedirectManager :=
  {| broadcastResult := redirectBroadcastResult |}.

(** ** The world the resolver runs in *)

(** The private fields of [AbstractPopupRedirectResolver].  The source
    declares [auth!: Auth]: [Resolver] is a resolver on which [processPopup]
    or [getRedirectResult] has stored the auth context.  The stage before,
    in which [this.auth] is [undefined], is [Unstarted] below. *)
Record Resolver := {
  redirectOutcomeHandler : RedirectManager;
  popupOutcomeHandler : PopupResultManager;
  auth : Auth
}.

(** Which of the two handler fields a [PopupRedirectOutcomeHandler] reference
    designates. *)
Inductive HandlerRef := PopupHandler | RedirectHandler.

(** Asynchronous operations of the host platform (the abstract methods
    [initializeAndWait] and [openPopup]). *)
Inductive HostJob :=
| JobInitialize (a : Auth)
| JobOpenPopup (a : Auth) (provider : AuthProvider) (authType : AuthEventType)
    (eventId : option string).

#[global] Instance HostJob_eq_dec : EqDecision HostJob.
Proof. solve_decision. Defined.

(** Modelled from the spec: the host platform behind the abstract methods, a
    readiness gate.  [inFlight] holds the jobs that were started and have not
    completed yet. *)
Record Host := {
  initialized : bool;
  inFlight : list HostJob
}.

(** Every call that leaves the resolver, as it is written in the source, and
    the completion of host jobs. *)
Inductive Call :=
| CallGetPotentialRedirectUsers
| CallIsMatchingEvent (eventId : option string) (answer : bool)
| CallBroadcastResult (h : HandlerRef) (cred : option UserCredential)
    (error : option Error)
| CallTask (task : IdpTask) (params : IdpTaskParams.t)
| CallGetNewPendingPromise
| CallGetRedirectPromiseOrInit
| CallIsInitialized (answer : bool)
| JobStarted (j : HostJob)
| JobCompleted (j : HostJob).

(** An invocation of [execIdpTask] that is suspended at [await task(params)]:
    what its continuation needs. *)
Record RunningTask := {
  rtTask : IdpTask;
  rtParams : IdpTaskParams.t;
  rtOutcomeHandler : HandlerRef;
  rtEventId : option string
}.

Record World := {
  this : Resolver;
  promises : gmap nat PromiseState;
  host : Host;
  trace : list Call;
  running : list RunningTask;
  unhandled : list Error
}.

(** ** A state and exception monad *)

Inductive Completion (A : Type) :=
| Normal (a : A)
| Throw (e : Error).
Arguments Normal {A} a.
Arguments Throw {A} e.

Definition M (A : Type) : Type := World -> Completion A * World.

Definition ret {A} (a : A) : M A := fun w => (Normal a, w).

Definition bind {A B} (m : M A) (k : A -> M B) : M B :=
  fun w =>
    match m w with
    | (Normal a, w') => k a w'
    | (Throw e, w') => (Throw e, w')
    end.

Definition throw {A} (e : Error) : M A := fun w => (Throw e, w).

(** [try { body } catch (e) { handler e }] *)
Definition tryCatch {A} (body : M A) (handler : Error -> M A) : M A :=
  fun w =>
    match body w with
    | (Normal a, w') => (Normal a, w')
    | (Throw e, w') => handler e w'
    end.

Definition gets {A} (f : World -> A) : M A := fun w => (Normal (f w), w).

Definition modify (f : World -> World) : M unit := fun w => (Normal tt, f w).

Declare Scope resolver_scope.
Delimit Scope resolver_scope with resolver.
Notation "'do' x <- c ; k" := (bind c (fun x => k))
  (at level 10, x name, c at level 100, k at level 200) : resolver_scope.
Notation "c ;; k" := (bind c (fun _ => k))
  (at level 100, k at level 200, right associativity) : resolver_scope.
Open Scope resolver_scope.

Definition withThis (r : Resolver) (w : World) : World :=
  {| this := r; promises := promises w; host := host w; trace := trace w;
     running := running w; unhandled := unhandled w |}.

Definition withPromises (s : gmap nat PromiseState) (w : World) : World :=
  {| this := this w; promises := s; host := host w; trace := trace w;
     running := running w; unhandled := unhandled w |}.

Definition withHost (h : Host) (w : World) : World :=
  {| this := this w; promises := promises w; host := h; trace := trace w;
     running := running w; unhandled := unhandled w |}.

Definition withTrace (t : list Call) (w : World) : World :=
  {| this := this w; promises := promises w; host := host w; trace := t;
     running := running w; unhandled := unhandled w |}.

Definition withRunning (l : list RunningTask) (w : World) : World :=
  {| this := this w; promises := promises w; host := host w; trace := trace w;
     running := l; unhandled := unhandled w |}.

Definition withUnhandled (l : list Error) (w : World) : World :=
  {| this := this w; promises := promises w; host := host w; trace := trace w;
     running := running w; unhandled := l |}.

Definition log (c : Call) : M unit :=
  modify (fun w => withTrace (trace w ++ [c]) w).

(** Calling an [async] method without awaiting it: its body runs up to its
    first suspension; a rejection of the promise it returns reaches nobody
    and is an unhandled rejection. *)
Definition detached (m : M unit) : M unit :=
  fun w =>
    match m w with
    | (Normal _, w') => (Normal tt, w')
    | (Throw e, w') => (Normal tt, withUnhandled (unhandled w' ++ [e]) w')
    end.

(** ** Collaborators as seen from the resolver *)

(** [this.popupOutcomeHandler.isMatchingEvent(eventId)] *)
Definition isMatchingEvent (eventId : option string) : M bool :=
  do answer <- gets (fun w =>
      popupIsMatchingEvent eventId (popupOutcomeHandler (this w)) (promises w));
  log (CallIsMatchingEvent eventId answer);;
  ret answer.

Definition broadcastOn (h : HandlerRef) (processing : option string)
    (cred : option UserCredential) (error : option Error) (w : World) : World :=
  match h with
  | PopupHandler =>
      let '(h', s') :=
        broadcastResult processing cred error
          (popupOutcomeHandler (this w)) (promises w) in
      withPromises s'
        (withThis {| redirectOutcomeHandler := redirectOutcomeHandler (this w);
                     popupOutcomeHandler := h';
                     auth := auth (this w) |} w)
  | RedirectHandler =>
      let '(h', s') :=
        broadcastResult processing cred error
          (redirectOutcomeHandler (this w)) (promises w) in
      withPromises s'
        (withThis {| redirectOutcomeHandler := h';
                     popupOutcomeHandler := popupOutcomeHandler (this w);
                     auth := auth (this w) |} w)
  end.

(** [handler.broadcastResult(cred, error)] on the handler [h] designates,
    while the event with id [processing] is being processed. *)
Definition callBroadcastResult (h : HandlerRef) (processing : option string)
    (cred : option UserCredential) (error : option Error) : M unit :=
  log (CallBroadcastResult h cred error);;
  modify (broadcastOn h processing cred error).

(** ** The resolver's methods *)

(** [userForEvent(id)]:
    [this.auth.getPotentialRedirectUsers_().find(u => u.redirectEventId_ === id)] *)
Definition userForEvent (id : option string) : M (option User) :=
  log CallGetPotentialRedirectUsers;;
  do users <- gets (fun w => getPotentialRedirectUsers_ (auth (this w)));
  ret (find (fun u => bool_decide (redirectEventId_ u = id)) users).

(** [getOutcomeHandler(eventType)]: the [default] branch throws. *)
Definition getOutcomeHandler (eventType : AuthEventType) : M HandlerRef :=
  match eventType with
  | SIGN_IN_VIA_POPUP | LINK_VIA_POPUP | REAUTH_VIA_POPUP => ret PopupHandler
  | SIGN_IN_VIA_REDIRECT | LINK_VIA_REDIRECT | REAUTH_VIA_REDIRECT =>
      ret RedirectHandler
  | UNKNOWN => throw (AuthError INTERNAL_ERROR "TODO")
  end.

(** The [params] object literal of [execIdpTask]. *)
Definition idpTaskParams (event : AuthEvent.t) (a : Auth) (user : option User)
    : IdpTaskParams.t :=
  {| IdpTaskParams.requestUri := AuthEvent.urlResponse event;
     IdpTaskParams.sessionId := AuthEvent.sessionId event;
     IdpTaskParams.auth := a;
     IdpTaskParams.tenantId := orAbsent (AuthEvent.tenantId event);
     IdpTaskParams.postBody := orAbsent (AuthEvent.postBody event);
     IdpTaskParams.user := user |}.

(** [execIdpTask] up to its suspension: it builds the parameters, selects
    the outcome handler, calls [task(params)] and awaits the promise. *)
Definition execIdpTask_start (event : AuthEvent.t) (task : IdpTask)
    (user : option User) : M unit :=
  do a <- gets (fun w => auth (this w));
  let params := idpTaskParams event a user in
  do outcomeHandler <- getOutcomeHandler (AuthEvent.type event);
  log (CallTask task params);;
  modify (fun w => withRunning
    (running w ++ [{| rtTask := task; rtParams := params;
                      rtOutcomeHandler := outcomeHandler;
                      rtEventId := AuthEvent.eventId event |}]) w).

(** What [await task(params)] evaluates to once the task has settled. *)
Definition awaited (outcome : UserCredential + Error) : M UserCredential :=
  match outcome with
  | inl cred => ret cred
  | inr e => throw e
  end.

(** [execIdpTask] from its suspension on: the [try]/[catch] around the
    awaited task and the two [broadcastResult] calls. *)
Definition execIdpTask_resume (rt : RunningTask)
    (outcome : UserCredential + Error) : M unit :=
  tryCatch
    (do cred <- awaited outcome;
     callBroadcastResult (rtOutcomeHandler rt) (rtEventId rt) (Some cred) None)
    (fun e =>
     callBroadcastResult (rtOutcomeHandler rt) (rtEventId rt) None (Some e)).

(** The [i]-th running task settles with [outcome] and its [execIdpTask]
    continues.  The promise of [execIdpTask] is awaited by nobody. *)
Definition taskSettles (i : nat) (outcome : UserCredential + Error) : M unit :=
  do tasks <- gets running;
  match tasks !! i with
  | None => ret tt
  | Some rt =>
      modify (withRunning (delete i tasks));;
      detached (execIdpTask_resume rt outcome)
  end.

(** [onEvent(event)].  The [switch] is written case by case; the
    [SIGN_IN_VIA_POPUP] case that does not [break] falls through into the
    statement of the [SIGN_IN_VIA_REDIRECT] case, [signInCase]. *)
Definition onEvent (event : AuthEvent.t) : M bool :=
  if bool_decide (is_Some (AuthEvent.error event))
     && bool_decide (AuthEvent.type event <> UNKNOWN)
  then
    do handler <- getOutcomeHandler (AuthEvent.type event);
    callBroadcastResult handler (AuthEvent.eventId event)
      None (AuthEvent.error event);;
    ret true
  else
    do potentialUser <- userForEvent (AuthEvent.eventId event);
    let signInCase := detached (execIdpTask_start event signIn None) in
    match AuthEvent.type event with
    | SIGN_IN_VIA_POPUP =>
        do matching <- isMatchingEvent (AuthEvent.eventId event);
        if negb matching then ret tt else signInCase
    | SIGN_IN_VIA_REDIRECT => signInCase
    | LINK_VIA_POPUP | LINK_VIA_REDIRECT =>
        match potentialUser with
        | Some u => detached (execIdpTask_start event link (Some u))
        | None => ret tt
        end
    | REAUTH_VIA_POPUP | REAUTH_VIA_REDIRECT =>
        match potentialUser with
        | Some u => detached (execIdpTask_start event reauth (Some u))
        | None => ret tt
        end
    | UNKNOWN => ret tt
    end;;
    ret true.

(** ** The host platform and the two flows *)

(** [this.isInitialized()] *)
Definition isInitialized : M bool :=
  do answer <- gets (fun w => initialized (host w));
  log (CallIsInitialized answer);;
  ret answer.

(** Calling an asynchronous method of the host starts a job and returns its
    promise, which is identified with the job. *)
Definition startJob (j : HostJob) : M HostJob :=
  log (JobStarted j);;
  modify (fun w => withHost {| initialized := initialized (host w);
                               inFlight := inFlight (host w) ++ [j] |} w);;
  ret j.

(** [this.initializeAndWait(auth)], the call alone. *)
Definition initializeAndWait (a : Auth) : M HostJob :=
  startJob (JobInitialize a).

(** [this.openPopup(auth, provider, authType, eventId)], the call alone. *)
Definition openPopup (a : Auth) (provider : AuthProvider)
    (authType : AuthEventType) (eventId : option string) : M HostJob :=
  startJob (JobOpenPopup a provider authType eventId).

Fixpoint removeJob (j : HostJob) (l : list HostJob) : list HostJob :=
  match l with
  | [] => []
  | j' :: rest => if decide (j' = j) then rest else j' :: removeJob j rest
  end.

(** The host completes a job: a completed initialization makes the host
    ready. *)
Definition completeJob (j : HostJob) (h : Host) : Host :=
  {| initialized :=
       match j with
       | JobInitialize _ => true
       | JobOpenPopup _ _ _ _ => initialized h
       end;
     inFlight := removeJob j (inFlight h) |}.

(** [await promise] on the promise of a host job: the caller continues only
    when the host has completed the job. *)
Definition await (j : HostJob) : M unit :=
  modify (fun w => withHost (completeJob j (host w)) w);;
  log (JobCompleted j).

(** A later turn of the host completes the [i]-th job in flight. *)
Definition hostTurn (i : nat) : M unit :=
  do jobs <- gets (fun w => inFlight (host w));
  match jobs !! i with
  | None => ret tt
  | Some j => await j
  end.

Definition newPromise : M PromiseId :=
  fun w =>
    let p := fresh (dom (promises w)) in
    (Normal p, withPromises (<[p := Pending]> (promises w)) w).

Definition setAuth (a : Auth) : M unit :=
  modify (fun w => withThis
    {| redirectOutcomeHandler := redirectOutcomeHandler (this w);
       popupOutcomeHandler := popupOutcomeHandler (this w);
       auth := a |} w).

Definition setPopupOutcomeHandler (h : PopupResultManager) : M unit :=
  modify (fun w => withThis
    {| redirectOutcomeHandler := redirectOutcomeHandler (this w);
       popupOutcomeHandler := h;
       auth := auth (this w) |} w).

Definition setRedirectOutcomeHandler (h : RedirectManager) : M unit :=
  modify (fun w => withThis
    {| redirectOutcomeHandler := h;
       popupOutcomeHandler := popupOutcomeHandler (this w);
       auth := auth (this w) |} w).

(** Modelled from the spec: [getNewPendingPromise(opener)] of the popup
    variant makes a promise for a new pending operation, invokes [opener] and
    returns the promise; the operation is keyed by the [eventId] the caller
    supplied, which [opener] leaves on the window handle.  The opener is run
    to its end here: what is modelled is the order of its calls, not the
    moment at which the promise is handed to the caller, which in the source
    is before the opener has finished. *)
Definition getNewPendingPromise (opener : M AuthPopup) : M PromiseId :=
  log CallGetNewPendingPromise;;
  do p <- newPromise;
  do win <- opener;
  do h <- gets (fun w => popupOutcomeHandler (this w));
  setPopupOutcomeHandler
    {| popupPending := <[associatedEvent win := p]> (popupPending h) |};;
  ret p.

(** Modelled from the spec: [getRedirectPromiseOrInit(initializer)] returns
    the existing pending or settled result if one already exists, otherwise
    registers a new pending operation and runs [initializer] once. *)
Definition getRedirectPromiseOrInit (initializer : M unit) : M PromiseId :=
  log CallGetRedirectPromiseOrInit;;
  do h <- gets (fun w => redirectOutcomeHandler (this w));
  match redirectResult h with
  | Some p => ret p
  | None =>
      do p <- newPromise;
      setRedirectOutcomeHandler
        {| redirectPending := Some p; redirectResult := Some p |};;
      initializer;;
      ret p
  end.

(** The [async] arrow function [processPopup] passes as opener. *)
Definition popupOpener (a : Auth) (provider : AuthProvider)
    (authType : AuthEventType) (eventId : option string) : M AuthPopup :=
  do ready <- isInitialized;
  (if negb ready
   then do initialization <- initializeAndWait a; await initialization
   else ret tt);;
  do opening <- openPopup a provider authType eventId;
  await opening;;
  ret {| associatedEvent := orAbsent eventId |}.

(** [processPopup(auth, provider, authType, eventId?)] *)
Definition processPopup (a : Auth) (provider : AuthProvider)
    (authType : AuthEventType) (eventId : option string) : M PromiseId :=
  setAuth a;;
  getNewPendingPromise (popupOpener a provider authType eventId).

(** The arrow function [getRedirectResult] passes as initializer.  It is not
    [async], and the promise of [initializeAndWait] is neither awaited nor
    returned. *)
Definition redirectInitializer (a : Auth) : M unit :=
  do ready <- isInitialized;
  if negb ready
  then do initialization <- initializeAndWait a; ret tt
  else ret tt.

(** [getRedirectResult(auth)] *)
Definition getRedirectResult (a : Auth) : M PromiseId :=
  setAuth a;;
  getRedirectPromiseOrInit (redirectInitializer a).

(** ** Runs of the resolver *)

(** What can happen to a resolver, one step at a time. *)
Inductive Step :=
| StartPopup (a : Auth) (provider : AuthProvider) (authType : AuthEventType)
    (eventId : option string)
| RedirectResult (a : Auth)
| Deliver (event : AuthEvent.t)
| TaskSettles (i : nat) (outcome : UserCredential + Error)
| HostTurn (i : nat).

Definition step (s : Step) (w : World) : World :=
  match s with
  | StartPopup a provider authType eventId =>
      snd (processPopup a provider authType eventId w)
  | RedirectResult a => snd (getRedirectResult a w)
  | Deliver event => snd (onEvent event w)
  | TaskSettles i outcome => snd (taskSettles i outcome w)
  | HostTurn i => snd (hostTurn i w)
  end.

Definition steps (l : list Step) (w : World) : World :=
  foldl (fun w s => step s w) w l.

(** A resolver whose first flow has just stored the auth context [a] (the
    [this.auth = auth] of [processPopup] and [getRedirectResult]): the
    handlers are as the field initializers made them, nothing is pending and
    the host is not ready. *)
Definition initialWorld (a : Auth) : World :=
  {| this := {| redirectOutcomeHandler :=
                  {| redirectPending := None; redirectResult := None |};
                popupOutcomeHandler := {| popupPending := ∅ |};
                auth := a |};
     promises := ∅;
     host := {| initialized := false; inFlight := [] |};
     trace := [];
     running := [];
     unhandled := [] |}.

(** ** The resolver before its first flow *)

(** The class has no constructor and declares [private auth!: Auth]: nothing
    assigns [this.auth] before [processPopup] or [getRedirectResult] does,
    and until then it holds [undefined].  [Unstarted] is the world of a
    resolver in that stage: the parts of [World] without the auth context.
    No task runs there, since [onEvent] reads [this.auth] before it starts
    one. *)
Record Unstarted := {
  unstartedRedirect : RedirectManager;
  unstartedPopup : PopupResultManager;
  unstartedPromises : gmap nat PromiseState;
  unstartedHost : Host;
  unstartedTrace : list Call
}.

(** What the first [this.auth = auth] makes of it. *)
Definition storeAuth (a : Auth) (u : Unstarted) : World :=
  {| this := {| redirectOutcomeHandler := unstartedRedirect u;
                popupOutcomeHandler := unstartedPopup u;
                auth := a |};
     promises := unstartedPromises u;
     host := unstartedHost u;
     trace := unstartedTrace u;
     running := [];
     unhandled := [] |}.

(** A resolver as constructed: the field initializers [new RedirectManager()]
    and [new PopupResultManager()] have run, [this.auth] is [undefined]. *)
Definition constructed (h : Host) : Unstarted :=
  {| unstartedRedirect := {| redirectPending := None; redirectResult := None |};
     unstartedPopup := {| popupPending := ∅ |};
     unstartedPromises := ∅;
     unstartedHost := h;
     unstartedTrace := [] |}.




(** A resolver in either stage of its life. *)
Inductive Instance :=
| BeforeFirstFlow (u : Unstarted)
| InFlow (w : World).


(** The world in which a flow that stores [a] starts. *)
Definition enterFlow (a : Auth) (i : Instance) : World :=
  match i with
  | BeforeFirstFlow u => storeAuth a u
  | InFlow w => w
  end.

(** [processPopup(auth, provider, authType, eventId?)] on a resolver in either
    stage: its first statement stores [auth]. *)
Definition processPopupAt (a : Auth) (provider : AuthProvider)
    (authType : AuthEventType) (eventId : option string) (i : Instance)
    : Completion PromiseId * Instance :=
  let '(r, w') := processPopup a provider authType eventId (enterFlow a i) in
  (r, InFlow w').

(** [getRedirectResult(auth)] on a resolver in either stage: its first
    statement stores [auth]. *)
Definition getRedirectResultAt (a : Auth) (i : Instance)
    : Completion PromiseId * Instance :=
  let '(r, w') := getRedirectResult a (enterFlow a i) in
  (r, InFlow w').


(** ** Vocabulary of the statements *)


(** The same event delivered with another type. *)
Definition retyped (t : AuthEventType) (event : AuthEvent.t) : AuthEvent.t :=
  {| AuthEvent.type := t;
     AuthEvent.eventId := AuthEvent.eventId event;
     AuthEvent.urlResponse := AuthEvent.urlResponse event;
     AuthEvent.sessionId := AuthEvent.sessionId event;
     AuthEvent.postBody := AuthEvent.postBody event;
     AuthEvent.tenantId := AuthEvent.tenantId event;
     AuthEvent.error := AuthEvent.error event |}.

(** The suspended invocation [execIdpTask(event, task, user)] leaves behind. *)
Definition runningTask (event : AuthEvent.t) (task : IdpTask)
    (user : option User) (h : HandlerRef) (w : World) : RunningTask :=
  {| rtTask := task;
     rtParams := idpTaskParams event (auth (this w)) user;
     rtOutcomeHandler := h;
     rtEventId := AuthEvent.eventId event |}.

(** The calls a computation adds to the trace when run in [w]. *)
Definition callsOf {A} (m : M A) (w : World) : list Call :=
  drop (length (trace w)) (trace (snd (m w))).

(** A computation awaits the initializations it starts: each
    [initializeAndWait] it calls has completed among its own calls, that is
    before it goes on or returns. *)
Definition awaitsInitialization {A} (m : M A) (w : World) : Prop :=
  forall a,
    In (JobStarted (JobInitialize a)) (callsOf m w) ->
    In (JobCompleted (JobInitialize a)) (callsOf m w).

(** The task a link or reauthenticate event asks for. *)
Definition userTaskOf (t : AuthEventType) : IdpTask :=
  match t with
  | LINK_VIA_POPUP | LINK_VIA_REDIRECT => link
  | _ => reauth
  end.

(** What [execIdpTask] passes to [broadcastResult] for a task outcome. *)
Definition broadcastFor (h : HandlerRef) (outcome : UserCredential + Error)
    : Call :=
  match outcome with
  | inl cred => CallBroadcastResult h (Some cred) None
  | inr e => CallBroadcastResult h None (Some e)
  end.


(** How often the initializer of [getRedirectResult] ran: each run starts
    with one [isInitialized()] query. *)
Definition initializerRuns (l : list Call) : nat :=
  length (List.filter (fun c => match c with
                                | CallIsInitialized _ => true
                                | _ => false
                                end) l).

(** Settled promises keep their state from [s1] to [s2]. *)
Definition settledKept (s1 s2 : gmap nat PromiseState) : Prop :=
  forall p s, s1 !! p = Some s -> s <> Pending -> s2 !! p = Some s.

(** A computation under which settled promises keep their state. *)
Definition keepsSettled {A} (m : M A) : Prop :=
  forall w, settledKept (promises w) (promises (snd (m w))).

(** Sample data of the scenarios. *)
Definition sampleAuth : Auth :=
  {| appName := "app";
     getPotentialRedirectUsers_ :=
       [{| uid := "u1"; redirectEventId_ := Some "link-1" |}] |}.

Definition sampleProvider : AuthProvider := {| providerId := "google.com" |}.

Definition sampleError : Error := ForeignError "network-request-failed".

Definition sampleEvent (t : AuthEventType) (id : option string)
    (err : option Error) : AuthEvent.t :=
  {| AuthEvent.type := t;
     AuthEvent.eventId := id;
     AuthEvent.urlResponse := Some "https://idp/callback?code=1";
     AuthEvent.sessionId := Some "s1";
     AuthEvent.postBody := None;
     AuthEvent.tenantId := None;
     AuthEvent.error := err |}.

(** A resolver on which a popup flow with [eventId = "abc"] was started. *)
Definition popupStarted : World :=
  step (StartPopup sampleAuth sampleProvider SIGN_IN_VIA_POPUP (Some "abc"))
    (initialWorld sampleAuth).

(** * Firestore: private constructors, lite snapshots and the dependency scan *)

(** [makeConstructorPrivate] of [packages/firestore/src/api/public_wrappers.ts]. *)
Module PublicWrappers.

(** [Code] of [util/error.ts]; [makeConstructorPrivate] only uses
    [INVALID_ARGUMENT]. *)
Inductive Code := INVALID_ARGUMENT.

(** [FirestoreError(code, message)] *)
Record FirestoreError := { code : Code; message : string }.

(** The body of [PublicConstructor] in [makeConstructorPrivate(cls,
    optionalMessage)]: the error it throws whenever it is invoked.  The empty
    string is falsy. *)
Definition publicConstructorError (optionalMessage : option string)
    : FirestoreError :=
  let error := "This constructor is private." in
  let error :=
    match optionalMessage with
    | Some (String c rest) => (error +:+ " ") +:+ String c rest
    | _ => error
    end in
  {| code := INVALID_ARGUMENT; message := error |}.

End PublicWrappers.

(** The lite snapshot classes [DocumentSnapshot], [QueryDocumentSnapshot] and
    [QuerySnapshot], in the second part of
    [packages/firestore/src/api/field_value.ts]. *)
Module Snapshot.

(** The lite [Firestore] instance; a snapshot reads its [_databaseId]. *)
Record Firestore := { _databaseId : string }.

(** [Document] of [model/document.ts], over the key type [K] and the proto
    type [P], which the snapshots do not look into. *)
Record Document (K P : Type) := { key : K; toProto : P }.
Arguments key {K P} _.
Arguments toProto {K P} _.

(** [DocumentReference(key, firestore)] of the lite API. *)
Record DocumentReference (K : Type) := {
  referenceKey : K;
  referenceFirestore : Firestore
}.
Arguments Build_DocumentReference {K} _ _.

(** [DocumentSnapshot]; [QueryDocumentSnapshot] extends it without adding
    state. *)
Record DocumentSnapshot (K P : Type) := {
  _firestore : Firestore;
  _key : K;
  _document : option (Document K P)
}.
Arguments _firestore {K P} _.
Arguments _key {K P} _.
Arguments _document {K P} _.

(** [get exists()] *)
Definition exists_ {K P} (s : DocumentSnapshot K P) : bool :=
  match _document s with
  | Some _ => true
  | None => false
  end.

(** [data()].  The constructor of [UserDataWriter] ([api/user_data_writer.ts])
    is the parameter [newUserDataWriter]; what it returns is the writer's
    [convertValue], which gives a value or throws.  [None] is [undefined]. *)
Definition data {K P T E}
    (newUserDataWriter :
       string -> bool -> string -> (K -> DocumentReference K) -> P -> E + T)
    (s : DocumentSnapshot K P) : E + option T :=
  match _document s with
  | None => inr None
  | Some document =>
      let convertValue :=
        newUserDataWriter (_databaseId (_firestore s)) false "none"
          (fun key => Build_DocumentReference key (_firestore s)) in
      match convertValue (toProto document) with
      | inl e => inl e
      | inr value => inr (Some value)
      end
  end.

(** [QuerySnapshot] over the internal query type [Q]. *)
Record QuerySnapshot (K P Q : Type) := {
  querySnapshotFirestore : Firestore;
  _originalQuery : Q;
  _docs : list (Document K P)
}.
Arguments querySnapshotFirestore {K P Q} _.
Arguments _originalQuery {K P Q} _.
Arguments _docs {K P Q} _.

(** [convertToDocumentImpl(doc)] *)
Definition convertToDocumentImpl {K P Q} (q : QuerySnapshot K P Q)
    (doc : Document K P) : DocumentSnapshot K P :=
  {| _firestore := querySnapshotFirestore q;
     _key := key doc;
     _document := Some doc |}.

(** [Array.prototype.forEach] with a callback that works on a state [S] and
    may throw: the first throw ends the iteration. *)
Fixpoint arrayForEach {A S E} (f : A -> S -> E + S) (l : list A) (s : S)
    : E + S :=
  match l with
  | [] => inr s
  | x :: rest =>
      match f x s with
      | inl e => inl e
      | inr s' => arrayForEach f rest s'
      end
  end.

(** [forEach(callback, thisArg?)]: [callback.call(thisArg, snapshot)] for
    every document. *)
Definition forEach {K P Q S E This} (q : QuerySnapshot K P Q)
    (callback : This -> DocumentSnapshot K P -> S -> E + S) (thisArg : This)
    : S -> E + S :=
  arrayForEach (fun doc => callback thisArg (convertToDocumentImpl q doc))
    (_docs q).

(** [get docs()]: the array filled by [forEach(doc => result.push(doc))]. *)
Definition docs {K P Q E} (q : QuerySnapshot K P Q)
    : E + list (DocumentSnapshot K P) :=
  forEach q (fun (_ : unit) doc result => inr (result ++ [doc])) tt [].

(** [get empty()] *)
Definition empty {K P Q} (q : QuerySnapshot K P Q) : bool :=
  bool_decide (length (_docs q) = 0).

(** [get size()] *)
Definition size {K P Q} (q : QuerySnapshot K P Q) : nat := length (_docs q).

End Snapshot.

(** The scan of [extractDependencies] (the source file without a name,
    [generate_deps]).  The text of the bundle is a [string] of bytes: the
    regular expression only has classes of ASCII characters and the line
    break is one byte, so bytes and UTF-16 code units give the same lines
    and the same names, and the names are ASCII. *)
Module GenerateDeps.

Definition inRange (lo hi c : ascii) : bool :=
  Ascii.leb lo c && Ascii.leb c hi.

(** The class [\w] of a regular expression without the [u] and [i] flags. *)
Definition isWordChar (c : ascii) : bool :=
  inRange "a"%char "z"%char c || inRange "A"%char "Z"%char c
  || inRange "0"%char "9"%char c || Ascii.eqb c "_"%char.

(** The class [[\w\$]]. *)
Definition isIdentifierChar (c : ascii) : bool :=
  isWordChar c || Ascii.eqb c "$"%char.

(** The longest prefix of characters of a class, as a greedy [*] takes it. *)
Fixpoint takeWhile (f : ascii -> bool) (s : string) : string :=
  match s with
  | EmptyString => EmptyString
  | String c rest => if f c then String c (takeWhile f rest) else EmptyString
  end.

(** What follows the literal [p] when [s] starts with it. *)
Fixpoint stripPrefix (p s : string) : option string :=
  match p with
  | EmptyString => Some s
  | String a p' =>
      match s with
      | String b s' => if Ascii.eqb a b then stripPrefix p' s' else None
      | EmptyString => None
      end
  end.

(** [line.match(identifierRe)] and, when it matches, [match[1]].  The
    regular expression is anchored at the start of the line and reads: an
    optional [async ], then [function] or [class], one space, and as its
    capture the longest run of [\w] and [$] characters, which may be empty. *)
Definition matchIdentifier (line : string) : option string :=
  let rest :=
    match stripPrefix "async " line with
    | Some afterAsync => afterAsync
    | None => line
    end in
  match stripPrefix "function " rest with
  | Some afterKeyword => Some (takeWhile isIdentifierChar afterKeyword)
  | None =>
      match stripPrefix "class " rest with
      | Some afterKeyword => Some (takeWhile isIdentifierChar afterKeyword)
      | None => None
      end
  end.

Definition newline : ascii := ascii_of_nat 10.

(** [content.split('\n')] *)
Fixpoint splitLines (content : string) : list string :=
  match content with
  | EmptyString => [EmptyString]
  | String c rest =>
      if Ascii.eqb c newline then EmptyString :: splitLines rest
      else
        match splitLines rest with
        | line :: lines => String c line :: lines
        | [] => [String c EmptyString]
        end
  end.

(** The loop of [extractDependencies] over the lines of the bundle and the
    [dependencies.sort()] that follows it: the list the function returns for
    the bundle text [afterContent].  [Array.prototype.sort()] without a
    comparator orders strings code unit by code unit, which is [String.le]. *)
Definition dependenciesOf (afterContent : string) : list string :=
  merge_sort String.le (omap matchIdentifier (splitLines afterContent)).

(** Every character of a string is of the class. *)
Fixpoint allChars (f : ascii -> bool) (s : string) : bool :=
  match s with
  | EmptyString => true
  | String c rest => f c && allChars f rest
  end.

(** A string that does not start with a character of the class. *)
Definition stopsAt (f : ascii -> bool) (s : string) : bool :=
  match s with
  | EmptyString => true
  | String c _ => negb (f c)
  end.

End GenerateDeps.

(** Sample data of the Firestore scenarios. *)
Definition sampleBundle : string :=
  "function zeta() {" +:+ String GenerateDeps.newline
  ("class Alpha extends Beta {" +:+ String GenerateDeps.newline
   "  function inner() {}").

Definition sampleQuerySnapshot : Snapshot.QuerySnapshot string nat unit :=
  {| Snapshot.querySnapshotFirestore := {| Snapshot._databaseId := "db" |};
     Snapshot._originalQuery := tt;
     Snapshot._docs :=
       [{| Snapshot.key := "rooms/a"; Snapshot.toProto := 1 |};
        {| Snapshot.key := "rooms/b"; Snapshot.toProto := 2 |};
        {| Snapshot.key := "rooms/c"; Snapshot.toProto := 3 |}] |}.

(** A callback that collects keys and throws on the key [rooms/b]. *)
Definition sampleCallback (_ : unit) (doc : Snapshot.DocumentSnapshot string nat)
    (seen : list string) : string + list string :=
  if bool_decide (Snapshot._key doc = "rooms/b") then inl "stop"
  else inr (seen ++ [Snapshot._key doc]).

(** A [UserDataWriter] whose [convertValue] gives the proto back. *)
Definition sampleWriter (_ : string) (_ : bool) (_ : string)
    (_ : string -> Snapshot.DocumentReference string) (proto : nat)
    : string + nat :=
  inr proto.

(** * Properties *)

(** ** Frame facts about the collaborators *)

(** Names the pair a [broadcastResult] call returns. *)
Ltac split_broadcast :=
  unfold broadcastOn;
  match goal with
  | h : HandlerRef |- _ => destruct h
  end;
  cbn [this promises host trace running unhandled withTrace];
  repeat match goal with
  | |- context [broadcastResult ?a ?b ?c ?d ?s] =>
      destruct (broadcastResult a b c d s)
  end;
  try reflexivity.

Lemma broadcastOn_trace h id c e w : trace (broadcastOn h id c e w) = trace w.
Proof. split_broadcast. Qed.

Lemma broadcastOn_withTrace_this h id c e t w :
  this (broadcastOn h id c e (withTrace t w)) = this (broadcastOn h id c e w).
Proof. split_broadcast. Qed.

Lemma broadcastOn_withTrace_promises h id c e t w :
  promises (broadcastOn h id c e (withTrace t w)) =
  promises (broadcastOn h id c e w).
Proof. split_broadcast. Qed.

Lemma broadcastOn_running h id c e w :
  running (broadcastOn h id c e w) = running w.
Proof. split_broadcast. Qed.

Lemma broadcastOn_unhandled h id c e w :
  unhandled (broadcastOn h id c e w) = unhandled w.
Proof. split_broadcast. Qed.

(** The handler that owns an event type, where there is one. *)
Lemma getOutcomeHandler_known t w :
  t <> UNKNOWN ->
  exists h, getOutcomeHandler t w = (Normal h, w) /\
    (h = PopupHandler <->
       t = SIGN_IN_VIA_POPUP \/ t = LINK_VIA_POPUP \/ t = REAUTH_VIA_POPUP).
Proof.
  intros Ht. destruct t; try congruence;
    (eexists; split; [reflexivity|]); split; intros; try discriminate;
    intuition congruence.
Qed.

Lemma callsOf_eq {A} (m : M A) w r w' l :
  m w = (r, w') -> trace w' = trace w ++ l -> callsOf m w = l.
Proof.
  intros Hm Ht. unfold callsOf. rewrite Hm. cbn. rewrite Ht.
  apply drop_app_length.
Qed.

Arguments broadcastOn : simpl never.

(** Runs the monadic steps of a method applied to a world. *)
Ltac run_steps :=
  cbv beta delta
    [bind ret throw gets modify log detached tryCatch awaited
     userForEvent isMatchingEvent callBroadcastResult getOutcomeHandler
     execIdpTask_start execIdpTask_resume];
  cbn.

Lemma execIdpTask_start_run event task user w h :
  getOutcomeHandler (AuthEvent.type event) w = (Normal h, w) ->
  execIdpTask_start event task user w =
  (Normal tt,
   withRunning (running w ++ [runningTask event task user h w])
     (withTrace
        (trace w ++ [CallTask task (idpTaskParams event (auth (this w)) user)])
        w)).
Proof.
  intros Hh. unfold execIdpTask_start.
  unfold bind at 1. cbn [gets].
  unfold bind at 1. rewrite Hh. reflexivity.
Qed.

Lemma detached_normal m w w' :
  m w = (Normal tt, w') -> detached m w = (Normal tt, w').
Proof. intros H. unfold detached. rewrite H. reflexivity. Qed.

Lemma onEvent_no_error event w :
  AuthEvent.error event = None ->
  onEvent event w =
  (do potentialUser <- userForEvent (AuthEvent.eventId event);
   match AuthEvent.type event with
   | SIGN_IN_VIA_POPUP =>
       do matching <- isMatchingEvent (AuthEvent.eventId event);
       if negb matching then ret tt
       else detached (execIdpTask_start event signIn None)
   | SIGN_IN_VIA_REDIRECT => detached (execIdpTask_start event signIn None)
   | LINK_VIA_POPUP | LINK_VIA_REDIRECT =>
       match potentialUser with
       | Some u => detached (execIdpTask_start event link (Some u))
       | None => ret tt
       end
   | REAUTH_VIA_POPUP | REAUTH_VIA_REDIRECT =>
       match potentialUser with
       | Some u => detached (execIdpTask_start event reauth (Some u))
       | None => ret tt
       end
   | UNKNOWN => ret tt
   end;;
   ret true) w.
Proof.
  intros Herr. unfold onEvent. rewrite Herr.
  rewrite bool_decide_eq_false_2; [reflexivity|].
  intros [x Hx]. discriminate.
Qed.


(** Splits on what the handler and the user query answer. *)
Ltac case_lookups :=
  match goal with
  | |- context [popupIsMatchingEvent ?a ?b ?c] =>
      destruct (popupIsMatchingEvent a b c) eqn:?; cbn
  | |- context [find ?f ?l] => destruct (find f l) eqn:?; cbn
  end.

Lemma onEvent_error_run event err w :
  AuthEvent.error event = Some err ->
  AuthEvent.type event <> UNKNOWN ->
  exists h,
    getOutcomeHandler (AuthEvent.type event) w = (Normal h, w) /\
    onEvent event w =
    (Normal true,
     broadcastOn h (AuthEvent.eventId event) None (Some err)
       (withTrace (trace w ++ [CallBroadcastResult h None (Some err)]) w)).
Proof.
  intros Herr Ht. destruct (getOutcomeHandler_known _ w Ht) as [h [Hh _]].
  exists h. split; [exact Hh|].
  unfold onEvent. rewrite Herr.
  rewrite bool_decide_eq_true_2 by eauto.
  rewrite bool_decide_eq_true_2 by exact Ht.
  cbn [andb]. unfold bind at 1. rewrite Hh. reflexivity.
Qed.

Lemma onEvent_unknown_run event w :
  AuthEvent.type event = UNKNOWN ->
  onEvent event w =
  (Normal true, withTrace (trace w ++ [CallGetPotentialRedirectUsers]) w).
Proof.
  intros Ht. unfold onEvent. rewrite Ht.
  rewrite (bool_decide_eq_false_2 (UNKNOWN <> UNKNOWN)) by congruence.
  rewrite andb_false_r. reflexivity.
Qed.

Lemma find_is_Some {A} (f : A -> bool) (l : list A) :
  is_Some (find f l) <-> exists x, In x l /\ f x = true.
Proof.
  split.
  - intros [x Hx]. exists x. apply find_some in Hx. exact Hx.
  - intros [x [Hin Hf]]. destruct (find f l) eqn:E; [eauto|].
    rewrite (find_none _ _ E _ Hin) in Hf. discriminate.
Qed.

(** ** The event router *)

(** C1. An event that carries an error and has a type other than [UNKNOWN]
    makes [onEvent] call [broadcastResult(null, event.error)] on the handler
    that owns the type, start no IdP task and resolve with [true].  With the
    type [UNKNOWN] no handler is touched, the event is dropped and [onEvent]
    still resolves with [true]. *)
Theorem onEvent_error_short_circuit event err w :
  AuthEvent.error event = Some err ->
  (AuthEvent.type event <> UNKNOWN ->
   exists h w',
     getOutcomeHandler (AuthEvent.type event) w = (Normal h, w) /\
     onEvent event w = (Normal true, w') /\
     callsOf (onEvent event) w = [CallBroadcastResult h None (Some err)] /\
     this w' =
       this (broadcastOn h (AuthEvent.eventId event) None (Some err) w) /\
     promises w' =
       promises (broadcastOn h (AuthEvent.eventId event) None (Some err) w) /\
     running w' = running w /\
     unhandled w' = unhandled w) /\
  (AuthEvent.type event = UNKNOWN ->
   exists w',
     onEvent event w = (Normal true, w') /\
     callsOf (onEvent event) w = [CallGetPotentialRedirectUsers] /\
     this w' = this w /\
     promises w' = promises w /\
     running w' = running w /\
     unhandled w' = unhandled w).
Proof.
  intros Herr. split; intros Ht.
  - destruct (onEvent_error_run _ _ w Herr Ht) as [h [Hh Hrun]].
    exists h. eexists. split; [exact Hh|]. split; [exact Hrun|].
    split.
    { eapply callsOf_eq; [exact Hrun|].
      rewrite broadcastOn_trace. reflexivity. }
    rewrite broadcastOn_withTrace_this, broadcastOn_withTrace_promises,
      broadcastOn_running, broadcastOn_unhandled.
    auto.
  - eexists. split; [apply onEvent_unknown_run; exact Ht|].
    split; [|cbn; auto].
    eapply callsOf_eq; [apply onEvent_unknown_run; exact Ht|reflexivity].
Qed.

(** C2. An error-free [SIGN_IN_VIA_POPUP] event starts the sign-in task if
    and only if [isMatchingEvent(event.eventId)] answers [true].  When it
    does, the task is invoked exactly as for the same event delivered as
    [SIGN_IN_VIA_REDIRECT]; when it does not, no task is started. *)
Theorem onEvent_sign_in_via_popup event w :
  AuthEvent.error event = None ->
  AuthEvent.type event = SIGN_IN_VIA_POPUP ->
  let matching :=
    popupIsMatchingEvent (AuthEvent.eventId event)
      (popupOutcomeHandler (this w)) (promises w) in
  let params := idpTaskParams event (auth (this w)) None in
  exists w' w'',
    onEvent event w = (Normal true, w') /\
    trace w' = trace w ++
      [CallGetPotentialRedirectUsers;
       CallIsMatchingEvent (AuthEvent.eventId event) matching] ++
      (if matching then [CallTask signIn params] else []) /\
    running w' = running w ++
      (if matching then [runningTask event signIn None PopupHandler w]
       else []) /\
    (In (CallTask signIn params) (callsOf (onEvent event) w)
       <-> matching = true) /\
    (running w' = running w <-> matching = false) /\
    onEvent (retyped SIGN_IN_VIA_REDIRECT event) w = (Normal true, w'') /\
    trace w'' = trace w ++
      [CallGetPotentialRedirectUsers; CallTask signIn params].
Proof.
  intros Herr Ht. cbv zeta. unfold callsOf.
  rewrite !onEvent_no_error by exact Herr.
  rewrite Ht. cbn [retyped AuthEvent.type].
  destruct (popupIsMatchingEvent (AuthEvent.eventId event)
              (popupOutcomeHandler (this w)) (promises w)) eqn:Hm.
  - do 2 eexists. run_steps. rewrite Hm, Ht. cbn.
    split; [reflexivity|]. cbn.
    rewrite <- ?app_assoc. cbn.
    split; [reflexivity|]. split; [reflexivity|].
    rewrite drop_app_length. cbn.
    split; [tauto|]. split.
    + split; [|discriminate]. intros H.
      apply (f_equal length) in H. rewrite length_app in H. cbn in H. lia.
    + split; [reflexivity|]. cbn. rewrite <- ?app_assoc. reflexivity.
  - do 2 eexists. run_steps. rewrite Hm. cbn.
    split; [reflexivity|]. cbn.
    rewrite <- ?app_assoc. cbn.
    split; [reflexivity|]. split; [rewrite app_nil_r; reflexivity|].
    rewrite drop_app_length. cbn.
    split; [intuition congruence|]. split; [tauto|].
    split; [reflexivity|]. cbn. rewrite <- ?app_assoc. reflexivity.
Qed.

(** C3. An error-free [SIGN_IN_VIA_REDIRECT] event always starts the sign-in
    task: no handler is asked about a pending operation, whatever popup
    operations are pending. *)
Theorem onEvent_sign_in_via_redirect event w :
  AuthEvent.error event = None ->
  AuthEvent.type event = SIGN_IN_VIA_REDIRECT ->
  let params := idpTaskParams event (auth (this w)) None in
  exists w',
    onEvent event w = (Normal true, w') /\
    callsOf (onEvent event) w =
      [CallGetPotentialRedirectUsers; CallTask signIn params] /\
    running w' =
      running w ++ [runningTask event signIn None RedirectHandler w] /\
    this w' = this w /\
    promises w' = promises w /\
    unhandled w' = unhandled w.
Proof.
  intros Herr Ht. cbv zeta. unfold callsOf.
  rewrite !onEvent_no_error by exact Herr. rewrite Ht.
  eexists. run_steps. rewrite Ht. cbn.
  split; [reflexivity|]. cbn. rewrite <- ?app_assoc, drop_app_length.
  auto 10.
Qed.

(** C4. An error-free link or reauthenticate event starts the link
    (respectively reauthenticate) task if and only if some user of
    [getPotentialRedirectUsers_()] has [redirectEventId_] equal to
    [event.eventId]; otherwise no task is started.  [onEvent] resolves with
    [true] either way. *)
Theorem onEvent_link_reauth event w :
  AuthEvent.error event = None ->
  In (AuthEvent.type event)
    [LINK_VIA_POPUP; LINK_VIA_REDIRECT; REAUTH_VIA_POPUP; REAUTH_VIA_REDIRECT] ->
  let users := getPotentialRedirectUsers_ (auth (this w)) in
  let potentialUser :=
    find (fun u => bool_decide (redirectEventId_ u = AuthEvent.eventId event))
      users in
  let task := userTaskOf (AuthEvent.type event) in
  exists h w',
    getOutcomeHandler (AuthEvent.type event) w = (Normal h, w) /\
    onEvent event w = (Normal true, w') /\
    (is_Some potentialUser <->
     exists u, In u users /\ redirectEventId_ u = AuthEvent.eventId event) /\
    callsOf (onEvent event) w =
      CallGetPotentialRedirectUsers ::
      match potentialUser with
      | Some u => [CallTask task (idpTaskParams event (auth (this w)) (Some u))]
      | None => []
      end /\
    running w' = running w ++
      match potentialUser with
      | Some u => [runningTask event task (Some u) h w]
      | None => []
      end /\
    ((exists rt, running w' = running w ++ [rt] /\ rtTask rt = task) <->
     exists u, In u users /\ redirectEventId_ u = AuthEvent.eventId event) /\
    this w' = this w /\
    promises w' = promises w /\
    unhandled w' = unhandled w.
Proof.
  intros Herr Ht. cbv zeta.
  set (potentialUser := find _ _).
  assert (Hfind : is_Some potentialUser <->
    exists u, In u (getPotentialRedirectUsers_ (auth (this w))) /\
      redirectEventId_ u = AuthEvent.eventId event).
  { unfold potentialUser. rewrite find_is_Some.
    split; intros [u [Hin Hu]]; exists u; split; auto.
    - apply bool_decide_eq_true_1 in Hu. exact Hu.
    - apply bool_decide_eq_true_2. exact Hu. }
  unfold callsOf. rewrite !onEvent_no_error by exact Herr.
  cbn in Ht.
  destruct Ht as [Ht|[Ht|[Ht|[Ht|[]]]]]; rewrite <- Ht;
    run_steps; fold potentialUser;
    (destruct potentialUser as [u|] eqn:Hpu; cbn; try rewrite <- Ht; cbn;
     do 2 eexists; (split; [reflexivity|]); (split; [reflexivity|]);
     (split; [exact Hfind|]); cbn; rewrite <- ?app_assoc, drop_app_length;
     (split; [reflexivity|]); (split; [try rewrite app_nil_r; reflexivity|]);
     (split; [|auto]); rewrite <- Hfind;
     (split;
      [ intros [rt [Hrt _]]; try (eexists; reflexivity);
        apply (f_equal length) in Hrt; rewrite length_app in Hrt;
        cbn in Hrt; lia
      | intros [x Hx]; try discriminate; eexists; split; reflexivity ])).
Qed.

(** [execIdpTask] for an event type without a handler: the task is not
    called and the internal error [getOutcomeHandler] throws rejects the
    promise of [execIdpTask], which nobody awaits. *)
Lemma execIdpTask_unknown_type event task user w :
  AuthEvent.type event = UNKNOWN ->
  detached (execIdpTask_start event task user) w =
  (Normal tt,
   withUnhandled (unhandled w ++ [AuthError INTERNAL_ERROR "TODO"]) w).
Proof.
  intros Ht. unfold detached, execIdpTask_start.
  unfold bind at 1. cbn [gets].
  unfold bind at 1. rewrite Ht. reflexivity.
Qed.

(** C5. When [execIdpTask] runs a task for an event, a failure of the task
    is caught and forwarded as [broadcastResult(null, error)] to the handler
    that owns the event type, a success is forwarded as
    [broadcastResult(cred)]; in both cases [execIdpTask] completes normally
    and no rejection is left unhandled. *)
Theorem execIdpTask_forwards_outcome event task user w :
  AuthEvent.type event <> UNKNOWN ->
  exists h w1,
    getOutcomeHandler (AuthEvent.type event) w = (Normal h, w) /\
    detached (execIdpTask_start event task user) w = (Normal tt, w1) /\
    callsOf (detached (execIdpTask_start event task user)) w =
      [CallTask task (idpTaskParams event (auth (this w)) user)] /\
    running w1 = running w ++ [runningTask event task user h w] /\
    unhandled w1 = unhandled w /\
    forall outcome w2,
      let rt := runningTask event task user h w in
      exists w3,
        execIdpTask_resume rt outcome w2 = (Normal tt, w3) /\
        detached (execIdpTask_resume rt outcome) w2 = (Normal tt, w3) /\
        callsOf (execIdpTask_resume rt outcome) w2 = [broadcastFor h outcome] /\
        running w3 = running w2 /\
        unhandled w3 = unhandled w2.
Proof.
  intros Ht. destruct (getOutcomeHandler_known _ w Ht) as [h [Hh _]].
  exists h. eexists. split; [exact Hh|].
  unfold callsOf.
  rewrite (detached_normal _ _ _ (execIdpTask_start_run _ task user _ _ Hh)).
  split; [reflexivity|]. cbn. rewrite drop_app_length.
  do 3 (split; [reflexivity|]).
  intros [cred|e] w2; cbv zeta; eexists; run_steps;
    rewrite broadcastOn_trace, broadcastOn_running, broadcastOn_unhandled;
    cbn; rewrite drop_app_length; auto.
Qed.


(** C10. An event with an error and a type other than [UNKNOWN] is
    broadcast to the owning handler without [isMatchingEvent] being asked,
    whatever the handlers hold; [isMatchingEvent] is asked exactly on
    error-free [SIGN_IN_VIA_POPUP] events. *)
Theorem onEvent_error_skips_matching event w :
  (forall err,
     AuthEvent.error event = Some err ->
     AuthEvent.type event <> UNKNOWN ->
     exists h,
       getOutcomeHandler (AuthEvent.type event) w = (Normal h, w) /\
       callsOf (onEvent event) w = [CallBroadcastResult h None (Some err)]) /\
  ((exists id answer,
      In (CallIsMatchingEvent id answer) (callsOf (onEvent event) w)) <->
   AuthEvent.error event = None /\ AuthEvent.type event = SIGN_IN_VIA_POPUP).
Proof.
  split.
  - intros err Herr Ht.
    destruct (onEvent_error_run _ _ w Herr Ht) as [h [Hh Hrun]].
    exists h. split; [exact Hh|].
    eapply callsOf_eq; [exact Hrun|].
    rewrite broadcastOn_trace. reflexivity.
  - destruct (AuthEvent.error event) as [err|] eqn:Herr.
    + split; [|intros [? _]; discriminate].
      intros [id [answer Hin]]. exfalso.
      destruct (decide (AuthEvent.type event = UNKNOWN)) as [Ht|Ht].
      * erewrite callsOf_eq in Hin;
          [|apply onEvent_unknown_run; exact Ht|reflexivity].
        cbn in Hin. intuition discriminate.
      * destruct (onEvent_error_run _ _ w Herr Ht) as [h [Hh Hrun]].
        erewrite callsOf_eq in Hin;
          [|exact Hrun|rewrite broadcastOn_trace; reflexivity].
        cbn in Hin. intuition discriminate.
    + unfold callsOf. rewrite onEvent_no_error by exact Herr.
      destruct (AuthEvent.type event) eqn:Ht; run_steps; rewrite ?Ht; cbn;
        repeat case_lookups;
        rewrite ?Ht; cbn; rewrite <- ?app_assoc, drop_app_length; cbn;
        (split;
         [ intros [id [answer Hin]]; intuition (try discriminate)
         | intros [_ Hty]; try discriminate; do 2 eexists; eauto ]).
Qed.

(** ** The readiness gate *)

(** Runs the steps of the two flows. *)
Ltac run_flow :=
  cbv beta delta
    [processPopup getRedirectResult getNewPendingPromise
     getRedirectPromiseOrInit popupOpener redirectInitializer isInitialized
     initializeAndWait openPopup startJob await newPromise setAuth
     setPopupOutcomeHandler setRedirectOutcomeHandler
     bind ret gets modify log];
  cbn.

(** The popup flow: the window is opened after the initialization it waited
    for has completed. *)
Lemma processPopup_opens_after_initialization a provider authType eventId w :
  initialized (host w) = false ->
  callsOf (processPopup a provider authType eventId) w =
    [CallGetNewPendingPromise;
     CallIsInitialized false;
     JobStarted (JobInitialize a);
     JobCompleted (JobInitialize a);
     JobStarted (JobOpenPopup a provider authType eventId);
     JobCompleted (JobOpenPopup a provider authType eventId)].
Proof.
  intros Hready. unfold callsOf. run_flow. rewrite Hready. cbn.
  rewrite <- ?app_assoc. apply drop_app_length.
Qed.

(** The redirect flow: the initialization is started and left in flight. *)
Lemma getRedirectResult_leaves_initialization_in_flight a w :
  initialized (host w) = false ->
  redirectResult (redirectOutcomeHandler (this w)) = None ->
  exists p w',
    getRedirectResult a w = (Normal p, w') /\
    callsOf (getRedirectResult a) w =
      [CallGetRedirectPromiseOrInit;
       CallIsInitialized false;
       JobStarted (JobInitialize a)] /\
    initialized (host w') = false /\
    inFlight (host w') = inFlight (host w) ++ [JobInitialize a].
Proof.
  intros Hready Hnone. unfold callsOf. run_flow. rewrite Hnone. cbn.
  rewrite Hready. cbn. do 2 eexists. split; [reflexivity|]. cbn.
  rewrite <- ?app_assoc, drop_app_length. auto.
Qed.

(** ** One redirect operation at a time *)

Lemma getRedirectResult_existing a w p :
  redirectResult (redirectOutcomeHandler (this w)) = Some p ->
  exists w',
    getRedirectResult a w = (Normal p, w') /\
    promises w' = promises w /\
    redirectOutcomeHandler (this w') = redirectOutcomeHandler (this w) /\
    popupOutcomeHandler (this w') = popupOutcomeHandler (this w) /\
    host w' = host w /\
    trace w' = trace w ++ [CallGetRedirectPromiseOrInit].
Proof.
  intros Hsome. run_flow. rewrite Hsome. cbn. eexists. auto 10.
Qed.

Lemma getRedirectResult_first a w :
  exists p w',
    getRedirectResult a w = (Normal p, w') /\
    redirectResult (redirectOutcomeHandler (this w')) = Some p /\
    initializerRuns (callsOf (getRedirectResult a) w) <= 1.
Proof.
  destruct (redirectResult (redirectOutcomeHandler (this w))) as [p|] eqn:Hres.
  - destruct (getRedirectResult_existing a w p Hres)
      as [w' [Hrun [_ [Hh [_ [_ Htrace]]]]]].
    exists p, w'. split; [exact Hrun|]. split; [congruence|].
    erewrite callsOf_eq by eauto. cbn. lia.
  - unfold callsOf. run_flow. rewrite Hres. cbn.
    destruct (initialized (host w)); cbn;
      do 2 eexists; (split; [reflexivity|]); cbn;
      rewrite <- ?app_assoc, drop_app_length; cbn; split; auto.
Qed.

(** C8. A call of [getRedirectResult] made while the redirect handler holds
    the operation of an earlier call returns the promise of that call, makes
    no new promise or operation and does not run the initializer; the
    initializer runs at most once in the first call. *)
Theorem getRedirectResult_reuses_pending_promise a1 a2 w :
  exists p w1,
    getRedirectResult a1 w = (Normal p, w1) /\
    initializerRuns (callsOf (getRedirectResult a1) w) <= 1 /\
    forall w1',
      redirectOutcomeHandler (this w1') = redirectOutcomeHandler (this w1) ->
      exists w2,
        getRedirectResult a2 w1' = (Normal p, w2) /\
        promises w2 = promises w1' /\
        redirectOutcomeHandler (this w2) = redirectOutcomeHandler (this w1') /\
        callsOf (getRedirectResult a2) w1' = [CallGetRedirectPromiseOrInit] /\
        initializerRuns (callsOf (getRedirectResult a2) w1') = 0.
Proof.
  destruct (getRedirectResult_first a1 w) as [p [w1 [Hrun [Hres Hruns]]]].
  exists p, w1. split; [exact Hrun|]. split; [exact Hruns|].
  intros w1' Hsame. rewrite <- Hsame in Hres.
  destruct (getRedirectResult_existing a2 w1' p Hres)
    as [w2 [Hrun2 [Hp [Hh [_ [_ Htrace]]]]]].
  exists w2. rewrite (callsOf_eq _ _ _ _ _ Hrun2 Htrace). auto.
Qed.

(** ** Settlement happens once *)

Lemma settledKept_refl s : settledKept s s.
Proof. intros p st Hp _. exact Hp. Qed.

Lemma settledKept_trans s1 s2 s3 :
  settledKept s1 s2 -> settledKept s2 s3 -> settledKept s1 s3.
Proof. intros H12 H23 p st Hp Hst. apply H23; [apply H12|]; assumption. Qed.

Lemma settle_only_pending p st store q :
  store !! q <> Some Pending -> settle p st store !! q = store !! q.
Proof.
  intros Hq. unfold settle.
  destruct (store !! p) as [[]|] eqn:Hp; try reflexivity.
  apply lookup_insert_ne. intros Heq. subst q. contradiction.
Qed.

Lemma settle_other p st store q :
  q <> p -> settle p st store !! q = store !! q.
Proof.
  intros Hq. unfold settle.
  destruct (store !! p) as [[]|] eqn:Hp; try reflexivity.
  apply lookup_insert_ne. congruence.
Qed.

Lemma settle_settledKept p st store : settledKept store (settle p st store).
Proof.
  intros q s Hq Hs. rewrite settle_only_pending; [exact Hq|congruence].
Qed.

Lemma newPromise_settledKept store :
  settledKept store (<[fresh (dom store) := Pending]> store).
Proof.
  intros q s Hq _. rewrite lookup_insert_ne; [exact Hq|].
  intros <-. pose proof (is_fresh (dom store)) as Hfresh.
  apply Hfresh. apply elem_of_dom. eauto.
Qed.

Lemma broadcastOn_settledKept h id cred err w :
  settledKept (promises w) (promises (broadcastOn h id cred err w)).
Proof.
  unfold broadcastOn. destruct h; cbn.
  - unfold popupBroadcastResult.
    destruct (popupPending (popupOutcomeHandler (this w)) !! id); cbn;
      [apply settle_settledKept|apply settledKept_refl].
  - unfold redirectBroadcastResult.
    destruct (redirectPending (redirectOutcomeHandler (this w))); cbn;
      [apply settle_settledKept|apply settledKept_refl].
Qed.

Create HintDb settled.

Lemma keepsSettled_ret {A} (a : A) : keepsSettled (ret a).
Proof. intros w. apply settledKept_refl. Qed.

Lemma keepsSettled_throw {A} e : keepsSettled (@throw A e).
Proof. intros w. apply settledKept_refl. Qed.

Lemma keepsSettled_gets {A} (f : World -> A) : keepsSettled (gets f).
Proof. intros w. apply settledKept_refl. Qed.

Lemma keepsSettled_modify f :
  (forall w, settledKept (promises w) (promises (f w))) ->
  keepsSettled (modify f).
Proof. intros Hf w. apply Hf. Qed.

Lemma keepsSettled_bind {A B} (m : M A) (k : A -> M B) :
  keepsSettled m -> (forall a, keepsSettled (k a)) -> keepsSettled (bind m k).
Proof.
  intros Hm Hk w. unfold bind. specialize (Hm w).
  destruct (m w) as [[a|e] w']; cbn in *; [|exact Hm].
  eapply settledKept_trans; [exact Hm|apply Hk].
Qed.

Lemma keepsSettled_tryCatch {A} (m : M A) (k : Error -> M A) :
  keepsSettled m -> (forall e, keepsSettled (k e)) ->
  keepsSettled (tryCatch m k).
Proof.
  intros Hm Hk w. unfold tryCatch. specialize (Hm w).
  destruct (m w) as [[a|e] w']; cbn in *; [exact Hm|].
  eapply settledKept_trans; [exact Hm|apply Hk].
Qed.

Lemma keepsSettled_detached m : keepsSettled m -> keepsSettled (detached m).
Proof.
  intros Hm w. unfold detached. specialize (Hm w).
  destruct (m w) as [[a|e] w']; cbn in *; exact Hm.
Qed.

Lemma keepsSettled_log c : keepsSettled (log c).
Proof. intros w. apply settledKept_refl. Qed.

Lemma keepsSettled_newPromise : keepsSettled newPromise.
Proof. intros w. apply newPromise_settledKept. Qed.

Lemma keepsSettled_callBroadcastResult h id cred err :
  keepsSettled (callBroadcastResult h id cred err).
Proof.
  intros w.
  apply (broadcastOn_settledKept h id cred err
           (withTrace (trace w ++ [CallBroadcastResult h cred err]) w)).
Qed.

Lemma keepsSettled_getOutcomeHandler t : keepsSettled (getOutcomeHandler t).
Proof. intros w. destruct t; apply settledKept_refl. Qed.

Lemma keepsSettled_awaited outcome : keepsSettled (awaited outcome).
Proof. intros w. destruct outcome; apply settledKept_refl. Qed.

#[local] Hint Resolve keepsSettled_ret keepsSettled_throw keepsSettled_gets
  keepsSettled_bind keepsSettled_tryCatch keepsSettled_detached
  keepsSettled_log keepsSettled_newPromise keepsSettled_callBroadcastResult
  keepsSettled_getOutcomeHandler keepsSettled_awaited settledKept_refl
  : settled.

(** Opens the branches of a method and closes each with the step facts. *)
Ltac keeps_settled :=
  repeat match goal with
  | |- keepsSettled (bind _ _) => apply keepsSettled_bind
  | |- keepsSettled (tryCatch _ _) => apply keepsSettled_tryCatch
  | |- keepsSettled (detached _) => apply keepsSettled_detached
  | |- keepsSettled (modify _) => apply keepsSettled_modify
  | |- keepsSettled (match ?x with _ => _ end) => destruct x
  | |- keepsSettled (let _ := _ in _) => cbv zeta
  | |- keepsSettled _ => solve [auto with settled]
  | |- settledKept _ _ => cbn; apply settledKept_refl
  | |- forall _, _ => intro
  end.

Lemma keepsSettled_execIdpTask_start event task user :
  keepsSettled (execIdpTask_start event task user).
Proof. unfold execIdpTask_start. keeps_settled. Qed.

Lemma keepsSettled_execIdpTask_resume rt outcome :
  keepsSettled (execIdpTask_resume rt outcome).
Proof. unfold execIdpTask_resume. keeps_settled. Qed.

#[local] Hint Resolve keepsSettled_execIdpTask_start
  keepsSettled_execIdpTask_resume : settled.

Lemma keepsSettled_onEvent event : keepsSettled (onEvent event).
Proof.
  unfold onEvent, userForEvent, isMatchingEvent. keeps_settled.
Qed.

Lemma keepsSettled_taskSettles i outcome :
  keepsSettled (taskSettles i outcome).
Proof. unfold taskSettles. keeps_settled. Qed.

Lemma keepsSettled_await j : keepsSettled (await j).
Proof. unfold await. keeps_settled. Qed.

Lemma keepsSettled_hostTurn i : keepsSettled (hostTurn i).
Proof. unfold hostTurn. pose proof keepsSettled_await. keeps_settled. Qed.

Lemma keepsSettled_processPopup a provider authType eventId :
  keepsSettled (processPopup a provider authType eventId).
Proof.
  pose proof keepsSettled_await.
  unfold processPopup, getNewPendingPromise, popupOpener, setAuth,
    setPopupOutcomeHandler, isInitialized, initializeAndWait, openPopup,
    startJob.
  keeps_settled.
Qed.

Lemma keepsSettled_getRedirectResult a : keepsSettled (getRedirectResult a).
Proof.
  unfold getRedirectResult, getRedirectPromiseOrInit, redirectInitializer,
    setAuth, setRedirectOutcomeHandler, isInitialized, initializeAndWait,
    startJob.
  keeps_settled.
Qed.

Lemma step_settledKept s w : settledKept (promises w) (promises (step s w)).
Proof.
  destruct s; cbn.
  - apply keepsSettled_processPopup.
  - apply keepsSettled_getRedirectResult.
  - apply keepsSettled_onEvent.
  - apply keepsSettled_taskSettles.
  - apply keepsSettled_hostTurn.
Qed.

Lemma steps_settledKept l w : settledKept (promises w) (promises (steps l w)).
Proof.
  revert w. induction l as [|s l IH]; intros w; cbn.
  - apply settledKept_refl.
  - eapply settledKept_trans; [apply step_settledKept|apply IH].
Qed.

(** C9. A [broadcastResult] of the popup handler matches at most the one
    pending operation of the event's [eventId], removes it, and leaves every
    other operation and promise alone; a second settlement attempt for that
    [eventId] changes nothing.  The same holds for the singleton operation of
    the redirect handler.  Through any run of the resolver a settled promise
    keeps the state of its first settlement. *)
Theorem pending_operation_settles_once id cred err cred' err' :
  (forall h store,
     let h1 := fst (popupBroadcastResult id cred err h store) in
     let store1 := snd (popupBroadcastResult id cred err h store) in
     popupPending h1 !! id = None /\
     popupIsMatchingEvent id h1 store1 = false /\
     popupBroadcastResult id cred' err' h1 store1 = (h1, store1) /\
     (forall id', id' <> id -> popupPending h1 !! id' = popupPending h !! id') /\
     (forall q, popupPending h !! id <> Some q -> store1 !! q = store !! q)) /\
  (forall h store,
     let h1 := fst (redirectBroadcastResult id cred err h store) in
     let store1 := snd (redirectBroadcastResult id cred err h store) in
     redirectPending h1 = None /\
     redirectBroadcastResult id cred' err' h1 store1 = (h1, store1) /\
     (forall q, redirectPending h <> Some q -> store1 !! q = store !! q)) /\
  (forall w p s l,
     promises w !! p = Some s -> s <> Pending ->
     promises (steps l w) !! p = Some s).
Proof.
  split; [|split].
  - intros h store. cbv zeta. unfold popupBroadcastResult.
    destruct (popupPending h !! id) as [p|] eqn:Hp; cbn.
    + rewrite lookup_delete_eq. unfold popupIsMatchingEvent. cbn.
      rewrite lookup_delete_eq. repeat split; auto.
      * intros id' Hne. apply lookup_delete_ne. congruence.
      * intros q Hq. apply settle_other. congruence.
    + unfold popupIsMatchingEvent. rewrite Hp. auto.
  - intros h store. cbv zeta. unfold redirectBroadcastResult.
    destruct (redirectPending h) as [p|] eqn:Hp; cbn.
    + repeat split; auto. intros q Hq. apply settle_other. congruence.
    + rewrite Hp. auto.
  - intros w p s l Hp Hs. exact (steps_settledKept l w p s Hp Hs).
Qed.

(** ** Scenarios *)

(** A popup flow with [eventId = "abc"] is started; the matching event
    arrives and the sign-in task produces a credential: the promise of the
    flow resolves with it. *)
Example popup_sign_in_resolves :
  let event := sampleEvent SIGN_IN_VIA_POPUP (Some "abc") None in
  let cred := {| credentialOf := "cred-1" |} in
  let w := steps [Deliver event; TaskSettles 0 (inl cred)] popupStarted in
  promises popupStarted !! 0 = Some Pending /\
  promises w !! 0 = Some (Resolved (Some cred)) /\
  popupPending (popupOutcomeHandler (this w)) = ∅ /\
  running w = [] /\
  unhandled w = [].
Proof. vm_compute. auto. Qed.

(** The sign-in task fails: the promise of the flow rejects with the error
    of the task. *)
Example popup_sign_in_rejects :
  let event := sampleEvent SIGN_IN_VIA_POPUP (Some "abc") None in
  let w := steps [Deliver event; TaskSettles 0 (inr sampleError)] popupStarted in
  promises w !! 0 = Some (Rejected sampleError) /\ unhandled w = [].
Proof. vm_compute. auto. Qed.

(** A [REAUTH_VIA_POPUP] event that carries an error and matches the pending
    popup rejects its promise; no task runs. *)
Example popup_error_event_rejects :
  let event := sampleEvent REAUTH_VIA_POPUP (Some "abc") (Some sampleError) in
  let w := step (Deliver event) popupStarted in
  promises w !! 0 = Some (Rejected sampleError) /\ running w = [].
Proof. vm_compute. auto. Qed.

(** A stale popup event starts nothing and leaves the flow pending. *)
Example stale_popup_event_dropped :
  let event := sampleEvent SIGN_IN_VIA_POPUP (Some "old") None in
  let w := step (Deliver event) popupStarted in
  promises w !! 0 = Some Pending /\ running w = [] /\
  this w = this popupStarted.
Proof. vm_compute. auto. Qed.

(** Once settled, the promise of the flow ignores a late duplicate of the
    event and a late error. *)
Example duplicate_events_ignored :
  let event := sampleEvent SIGN_IN_VIA_POPUP (Some "abc") None in
  let late := sampleEvent SIGN_IN_VIA_POPUP (Some "abc") (Some sampleError) in
  let cred := {| credentialOf := "cred-1" |} in
  let w := steps [Deliver event; TaskSettles 0 (inl cred); Deliver event;
                  Deliver late] popupStarted in
  promises w !! 0 = Some (Resolved (Some cred)) /\ running w = [].
Proof. vm_compute. auto. Qed.

(** The pending initialization of a redirect flow completes on a later turn
    of the host. *)
Example redirect_initialization_completes_later :
  let w := step (RedirectResult sampleAuth) (initialWorld sampleAuth) in
  initialized (host w) = false /\
  initialized (host (step (HostTurn 0) w)) = true.
Proof. vm_compute. auto. Qed.

(** ** The statements at sample inputs *)

Lemma onEvent_error_short_circuit_witness :
  let failed := sampleEvent REAUTH_VIA_POPUP (Some "abc") (Some sampleError) in
  let unknown := sampleEvent UNKNOWN (Some "abc") (Some sampleError) in
  AuthEvent.error failed = Some sampleError /\
  AuthEvent.type failed <> UNKNOWN /\
  AuthEvent.error unknown = Some sampleError /\
  AuthEvent.type unknown = UNKNOWN /\
  (exists h, callsOf (onEvent failed) popupStarted =
     [CallBroadcastResult h None (Some sampleError)]) /\
  callsOf (onEvent unknown) popupStarted = [CallGetPotentialRedirectUsers].
Proof.
  cbv zeta.
  split; [reflexivity|]. split; [discriminate|].
  split; [reflexivity|]. split; [reflexivity|].
  split.
  - destruct (onEvent_error_short_circuit
                (sampleEvent REAUTH_VIA_POPUP (Some "abc") (Some sampleError))
                sampleError popupStarted eq_refl) as [Hknown _].
    destruct Hknown as [h [w' [_ [_ [Hcalls _]]]]]; [discriminate|].
    exists h. exact Hcalls.
  - destruct (onEvent_error_short_circuit
                (sampleEvent UNKNOWN (Some "abc") (Some sampleError))
                sampleError popupStarted eq_refl) as [_ Hunknown].
    destruct Hunknown as [w' [_ [Hcalls _]]]; [reflexivity|].
    exact Hcalls.
Defined.

Lemma onEvent_sign_in_via_popup_witness :
  let event := sampleEvent SIGN_IN_VIA_POPUP (Some "abc") None in
  AuthEvent.error event = None /\
  AuthEvent.type event = SIGN_IN_VIA_POPUP /\
  exists w',
    onEvent event popupStarted = (Normal true, w') /\
    In (CallTask signIn (idpTaskParams event (auth (this popupStarted)) None))
      (callsOf (onEvent event) popupStarted).
Proof.
  cbv zeta. split; [reflexivity|]. split; [reflexivity|].
  destruct (onEvent_sign_in_via_popup
              (sampleEvent SIGN_IN_VIA_POPUP (Some "abc") None)
              popupStarted eq_refl eq_refl)
    as [w' [w'' [Hrun [_ [_ [Hiff _]]]]]].
  exists w'. split; [exact Hrun|]. apply Hiff. vm_compute. reflexivity.
Defined.

Lemma onEvent_sign_in_via_redirect_witness :
  let event := sampleEvent SIGN_IN_VIA_REDIRECT None None in
  AuthEvent.error event = None /\
  AuthEvent.type event = SIGN_IN_VIA_REDIRECT /\
  callsOf (onEvent event) popupStarted =
    [CallGetPotentialRedirectUsers;
     CallTask signIn (idpTaskParams event (auth (this popupStarted)) None)].
Proof.
  cbv zeta. split; [reflexivity|]. split; [reflexivity|].
  destruct (onEvent_sign_in_via_redirect
              (sampleEvent SIGN_IN_VIA_REDIRECT None None)
              popupStarted eq_refl eq_refl)
    as [w' [_ [Hcalls _]]].
  exact Hcalls.
Defined.

Lemma onEvent_link_reauth_witness :
  let event := sampleEvent LINK_VIA_REDIRECT (Some "link-1") None in
  AuthEvent.error event = None /\
  In (AuthEvent.type event)
    [LINK_VIA_POPUP; LINK_VIA_REDIRECT; REAUTH_VIA_POPUP; REAUTH_VIA_REDIRECT] /\
  exists w' rt,
    onEvent event popupStarted = (Normal true, w') /\
    running w' = running popupStarted ++ [rt] /\
    rtTask rt = link.
Proof.
  cbv zeta. split; [reflexivity|]. split; [cbn; tauto|].
  destruct (onEvent_link_reauth
              (sampleEvent LINK_VIA_REDIRECT (Some "link-1") None)
              popupStarted eq_refl ltac:(cbn; tauto))
    as [h [w' [_ [Hrun [_ [_ [_ [Hiff _]]]]]]]].
  destruct Hiff as [_ Hstarts].
  destruct Hstarts as [rt [Hrt Htask]].
  - eexists. split; [vm_compute; left; reflexivity|reflexivity].
  - exists w', rt. auto.
Defined.

Lemma execIdpTask_forwards_outcome_witness :
  let event := sampleEvent SIGN_IN_VIA_REDIRECT None None in
  AuthEvent.type event <> UNKNOWN /\
  exists h rt w3,
    execIdpTask_resume rt (inr sampleError) popupStarted = (Normal tt, w3) /\
    callsOf (execIdpTask_resume rt (inr sampleError)) popupStarted =
      [CallBroadcastResult h None (Some sampleError)] /\
    unhandled w3 = unhandled popupStarted.
Proof.
  cbv zeta. split; [discriminate|].
  destruct (execIdpTask_forwards_outcome
              (sampleEvent SIGN_IN_VIA_REDIRECT None None) signIn None
              popupStarted ltac:(discriminate))
    as [h [w1 [_ [_ [_ [_ [_ Hresume]]]]]]].
  destruct (Hresume (inr sampleError) popupStarted)
    as [w3 [Hrun [_ [Hcalls [_ Hunhandled]]]]].
  exists h. eexists. exists w3. eauto.
Defined.

Lemma onEvent_error_skips_matching_witness :
  let event := sampleEvent SIGN_IN_VIA_POPUP (Some "old") (Some sampleError) in
  AuthEvent.error event = Some sampleError /\
  AuthEvent.type event <> UNKNOWN /\
  popupIsMatchingEvent (AuthEvent.eventId event)
    (popupOutcomeHandler (this popupStarted)) (promises popupStarted) = false /\
  exists h,
    callsOf (onEvent event) popupStarted =
      [CallBroadcastResult h None (Some sampleError)].
Proof.
  cbv zeta. split; [reflexivity|]. split; [discriminate|].
  split; [vm_compute; reflexivity|].
  destruct (onEvent_error_skips_matching
              (sampleEvent SIGN_IN_VIA_POPUP (Some "old") (Some sampleError))
              popupStarted) as [Hskip _].
  destruct (Hskip sampleError eq_refl ltac:(discriminate)) as [h [_ Hcalls]].
  exists h. exact Hcalls.
Defined.

Lemma getRedirectResult_reuses_pending_promise_witness :
  exists p w1 w2,
    getRedirectResult sampleAuth (initialWorld sampleAuth) = (Normal p, w1) /\
    redirectOutcomeHandler (this w1) = redirectOutcomeHandler (this w1) /\
    getRedirectResult sampleAuth w1 = (Normal p, w2) /\
    promises w2 = promises w1 /\
    initializerRuns (callsOf (getRedirectResult sampleAuth) w1) = 0.
Proof.
  destruct (getRedirectResult_reuses_pending_promise sampleAuth sampleAuth
              (initialWorld sampleAuth)) as [p [w1 [Hrun [_ Hagain]]]].
  destruct (Hagain w1 eq_refl) as [w2 [Hrun2 [Hp [_ [_ Hruns]]]]].
  exists p, w1, w2. auto.
Defined.

Lemma pending_operation_settles_once_witness :
  let event := sampleEvent SIGN_IN_VIA_POPUP (Some "abc") (Some sampleError) in
  let w := step (Deliver event) popupStarted in
  let h := popupOutcomeHandler (this popupStarted) in
  let r := {| redirectPending := Some 1; redirectResult := Some 1 |} in
  let late := [Deliver (sampleEvent SIGN_IN_VIA_POPUP (Some "abc") None);
               TaskSettles 0 (inl {| credentialOf := "cred-1" |})] in
  Some "other" <> Some "abc" /\
  popupPending h !! Some "abc" <> Some 7 /\
  redirectPending r <> Some 7 /\
  promises w !! 0 = Some (Rejected sampleError) /\
  Rejected sampleError <> Pending /\
  popupPending
    (fst (popupBroadcastResult (Some "abc") None (Some sampleError) h
            (promises popupStarted))) !! Some "other" =
    popupPending h !! Some "other" /\
  snd (popupBroadcastResult (Some "abc") None (Some sampleError) h
         (promises popupStarted)) !! 7 = promises popupStarted !! 7 /\
  snd (redirectBroadcastResult (Some "abc") None (Some sampleError) r
         (promises popupStarted)) !! 7 = promises popupStarted !! 7 /\
  promises (steps late w) !! 0 = Some (Rejected sampleError).
Proof.
  cbv zeta.
  destruct (pending_operation_settles_once (Some "abc") None (Some sampleError)
              None None) as [Hpopup [Hredirect Hstable]].
  destruct (Hpopup (popupOutcomeHandler (this popupStarted))
              (promises popupStarted)) as [_ [_ [_ [Hothers Hstore]]]].
  destruct (Hredirect {| redirectPending := Some 1; redirectResult := Some 1 |}
              (promises popupStarted)) as [_ [_ Hrstore]].
  assert (Hne : Some "other" <> Some "abc") by discriminate.
  assert (Hq : popupPending (popupOutcomeHandler (this popupStarted))
                 !! Some "abc" <> Some 7) by (vm_compute; discriminate).
  assert (Hrq : redirectPending
                  {| redirectPending := Some 1; redirectResult := Some 1 |}
                <> Some 7) by (cbn; discriminate).
  assert (Hs : promises
                 (step (Deliver (sampleEvent SIGN_IN_VIA_POPUP (Some "abc")
                                   (Some sampleError))) popupStarted) !! 0 =
               Some (Rejected sampleError)) by (vm_compute; reflexivity).
  assert (Hp : Rejected sampleError <> Pending) by discriminate.
  do 5 (split; [assumption|]).
  split; [exact (Hothers _ Hne)|].
  split; [exact (Hstore _ Hq)|].
  split; [exact (Hrstore _ Hrq)|].
  exact (Hstable _ _ _ _ Hs Hp).
Defined.

(** * Further properties of the resolver *)

Lemma settle_dom p st store : dom (settle p st store) = dom store.
Proof.
  unfold settle. destruct (store !! p) as [[]|] eqn:Hp; try reflexivity.
  apply dom_insert_lookup_L. eauto.
Qed.

Lemma broadcastOn_host h id c e w : host (broadcastOn h id c e w) = host w.
Proof. split_broadcast. Qed.

Lemma broadcastOn_auth h id c e w :
  auth (this (broadcastOn h id c e w)) = auth (this w).
Proof. split_broadcast. Qed.

Lemma broadcastOn_dom h id c e w :
  dom (promises (broadcastOn h id c e w)) = dom (promises w).
Proof.
  unfold broadcastOn. destruct h; cbn.
  - unfold popupBroadcastResult.
    destruct (popupPending (popupOutcomeHandler (this w)) !! id); cbn;
      [apply settle_dom|reflexivity].
  - unfold redirectBroadcastResult.
    destruct (redirectPending (redirectOutcomeHandler (this w))); cbn;
      [apply settle_dom|reflexivity].
Qed.

(** What an event that is not short-circuited does: it reads the users, asks
    [isMatchingEvent] only for a [SIGN_IN_VIA_POPUP] event and starts at most
    one task; handlers, promises and host stay as they are. *)
Lemma onEvent_dispatch_run event w :
  AuthEvent.error event = None \/ AuthEvent.type event = UNKNOWN ->
  exists w',
    onEvent event w = (Normal true, w') /\
    this w' = this w /\
    promises w' = promises w /\
    host w' = host w /\
    unhandled w' = unhandled w /\
    (running w' = running w \/ exists rt, running w' = running w ++ [rt]) /\
    forall c, In c (callsOf (onEvent event) w) ->
      match c with
      | CallGetPotentialRedirectUsers | CallTask _ _ => True
      | CallIsMatchingEvent id _ =>
          AuthEvent.error event = None /\
          AuthEvent.type event = SIGN_IN_VIA_POPUP /\
          id = AuthEvent.eventId event
      | _ => False
      end.
Proof.
  intros [Herr|Ht].
  - unfold callsOf. rewrite onEvent_no_error by exact Herr.
    destruct (AuthEvent.type event) eqn:Ht; run_steps; rewrite ?Ht; cbn;
      repeat case_lookups; rewrite ?Ht; cbn;
      eexists; (split; [reflexivity|]); cbn;
      rewrite <- ?app_assoc, drop_app_length; cbn;
      repeat (split; [reflexivity|]);
      (split; [eauto|]); intros c Hin; intuition (subst; cbn; auto).
  - exists (withTrace (trace w ++ [CallGetPotentialRedirectUsers]) w).
    split; [apply onEvent_unknown_run; exact Ht|].
    repeat (split; [reflexivity|]). split; [auto|].
    intros c Hin.
    erewrite callsOf_eq in Hin;
      [|apply onEvent_unknown_run; exact Ht|reflexivity].
    cbn in Hin. destruct Hin as [<-|[]]. exact I.
Qed.

(** X1. [onEvent] never calls the host platform, never replaces the auth
    context and never creates a promise: it can only settle promises that
    exist. *)
Theorem onEvent_keeps_host_auth_and_promise_set event w :
  host (snd (onEvent event w)) = host w /\
  auth (this (snd (onEvent event w))) = auth (this w) /\
  dom (promises (snd (onEvent event w))) = dom (promises w) /\
  (forall c, In c (callsOf (onEvent event) w) ->
     match c with
     | CallIsInitialized _ | JobStarted _ | JobCompleted _
     | CallGetNewPendingPromise | CallGetRedirectPromiseOrInit => False
     | _ => True
     end).
Proof.
  destruct (AuthEvent.error event) as [err|] eqn:Herr.
  - destruct (decide (AuthEvent.type event = UNKNOWN)) as [Ht|Ht].
    + rewrite (callsOf_eq _ _ _ _ _ (onEvent_unknown_run _ w Ht) eq_refl).
      rewrite onEvent_unknown_run by exact Ht. cbn.
      repeat (split; [reflexivity|]). intros c [<-|[]]. exact I.
    + destruct (onEvent_error_run _ _ w Herr Ht) as [h [_ Hrun]].
      rewrite (callsOf_eq _ _ _ _ [CallBroadcastResult h None (Some err)] Hrun)
        by (rewrite broadcastOn_trace; reflexivity).
      rewrite Hrun. cbn.
      rewrite broadcastOn_host, broadcastOn_auth, broadcastOn_dom. cbn.
      repeat (split; [reflexivity|]). intros c [<-|[]]. exact I.
  - unfold callsOf. rewrite onEvent_no_error by exact Herr.
    destruct (AuthEvent.type event) eqn:Ht; run_steps; rewrite ?Ht; cbn;
      repeat case_lookups; rewrite ?Ht; cbn;
      repeat (split; [reflexivity|]);
      rewrite <- ?app_assoc, drop_app_length; cbn;
      intros c Hin; intuition (subst; exact I).
Qed.

(** X2. One event has one effect.  Either it carries an error and is
    broadcast, by exactly one [broadcastResult(null, error)] and without
    starting a task; or [broadcastResult] is not called at all: the calls are
    the query of the users, for an error-free [SIGN_IN_VIA_POPUP] event the
    [isMatchingEvent] query, and at most one task, while handlers and
    promises stay as they are. *)
Theorem onEvent_broadcasts_or_starts_one_task event w :
  exists w',
    onEvent event w = (Normal true, w') /\
    ((exists h err,
        AuthEvent.error event = Some err /\
        callsOf (onEvent event) w = [CallBroadcastResult h None (Some err)] /\
        running w' = running w) \/
     ((forall c, In c (callsOf (onEvent event) w) ->
         match c with
         | CallGetPotentialRedirectUsers | CallTask _ _ => True
         | CallIsMatchingEvent id _ =>
             AuthEvent.error event = None /\
             AuthEvent.type event = SIGN_IN_VIA_POPUP /\
             id = AuthEvent.eventId event
         | _ => False
         end) /\
      this w' = this w /\
      promises w' = promises w /\
      (running w' = running w \/ exists rt, running w' = running w ++ [rt]))).
Proof.
  destruct (AuthEvent.error event) as [err|] eqn:Herr.
  - destruct (decide (AuthEvent.type event = UNKNOWN)) as [Ht|Ht].
    + destruct (onEvent_dispatch_run event w (or_intror Ht))
        as [w' [Hrun [Hthis [Hp [_ [_ [Hrunning Hcalls]]]]]]].
      exists w'. split; [exact Hrun|]. right.
      split; [|auto]. intros c Hc. specialize (Hcalls c Hc).
      rewrite Herr in Hcalls. exact Hcalls.
    + destruct (onEvent_error_run _ _ w Herr Ht) as [h [_ Hrun]].
      eexists. split; [exact Hrun|]. left. exists h, err.
      split; [reflexivity|]. split.
      * eapply callsOf_eq; [exact Hrun|].
        rewrite broadcastOn_trace. reflexivity.
      * rewrite broadcastOn_running. reflexivity.
  - destruct (onEvent_dispatch_run event w (or_introl Herr))
      as [w' [Hrun [Hthis [Hp [_ [_ [Hrunning Hcalls]]]]]]].
    exists w'. split; [exact Hrun|]. right.
    split; [|auto]. intros c Hc. specialize (Hcalls c Hc).
    rewrite Herr in Hcalls. exact Hcalls.
Qed.

(** X3. [execIdpTask] for an event whose type has no outcome handler:
    [getOutcomeHandler] throws outside the [try], so the task is never
    called, no handler is told, and the internal error is left as an
    unhandled rejection of the promise of [execIdpTask]. *)
Theorem execIdpTask_without_handler event task user w :
  AuthEvent.type event = UNKNOWN ->
  exists w',
    detached (execIdpTask_start event task user) w = (Normal tt, w') /\
    callsOf (detached (execIdpTask_start event task user)) w = [] /\
    running w' = running w /\
    this w' = this w /\
    promises w' = promises w /\
    unhandled w' = unhandled w ++ [AuthError INTERNAL_ERROR "TODO"].
Proof.
  intros Ht. eexists. unfold callsOf.
  rewrite (execIdpTask_unknown_type event task user w Ht). cbn.
  rewrite drop_all. auto 10.
Qed.

Lemma orAbsent_None x : orAbsent x = None <-> x = None \/ x = Some EmptyString.
Proof.
  destruct x as [[|c s]|]; cbn; split; intros H; auto; try discriminate;
    destruct H as [H|H]; discriminate.
Qed.

Lemma orAbsent_Some x s : orAbsent x = Some s <-> x = Some s /\ s <> EmptyString.
Proof.
  destruct x as [[|c s']|]; cbn; split; intros H; try discriminate.
  - destruct H as [[= <-] Hne]. contradiction.
  - injection H as <-. split; [reflexivity|discriminate].
  - destruct H as [H _]. exact H.
  - destruct H as [H _]. discriminate.
Qed.

(** X4. The parameters [execIdpTask] hands to the task: [urlResponse] and
    [sessionId] are passed on as they are, present or not; a [tenantId] or
    [postBody] that is missing or the empty string is passed as absent, any
    other is passed unchanged; the auth context is the resolver's. *)
Theorem execIdpTask_task_parameters event task user w :
  AuthEvent.type event <> UNKNOWN ->
  exists w' rt,
    detached (execIdpTask_start event task user) w = (Normal tt, w') /\
    running w' = running w ++ [rt] /\
    rtTask rt = task /\
    IdpTaskParams.requestUri (rtParams rt) = AuthEvent.urlResponse event /\
    IdpTaskParams.sessionId (rtParams rt) = AuthEvent.sessionId event /\
    IdpTaskParams.user (rtParams rt) = user /\
    IdpTaskParams.auth (rtParams rt) = auth (this w) /\
    (IdpTaskParams.tenantId (rtParams rt) = None <->
       AuthEvent.tenantId event = None \/
       AuthEvent.tenantId event = Some EmptyString) /\
    (forall s, IdpTaskParams.tenantId (rtParams rt) = Some s <->
       AuthEvent.tenantId event = Some s /\ s <> EmptyString) /\
    (IdpTaskParams.postBody (rtParams rt) = None <->
       AuthEvent.postBody event = None \/
       AuthEvent.postBody event = Some EmptyString) /\
    (forall s, IdpTaskParams.postBody (rtParams rt) = Some s <->
       AuthEvent.postBody event = Some s /\ s <> EmptyString).
Proof.
  intros Ht. destruct (getOutcomeHandler_known _ w Ht) as [h [Hh _]].
  eexists. exists (runningTask event task user h w).
  split.
  { apply detached_normal. apply execIdpTask_start_run. exact Hh. }
  cbn. repeat (split; [reflexivity|]).
  split; [apply orAbsent_None|]. split; [intros s; apply orAbsent_Some|].
  split; [apply orAbsent_None|]. intros s; apply orAbsent_Some.
Qed.

(** X5. [userForEvent] answers with the first user, in the order of
    [getPotentialRedirectUsers_()], whose [redirectEventId_] is the given id:
    no earlier user has that id.  It answers nothing exactly when no user has
    it, and it changes nothing in the resolver. *)
Theorem userForEvent_first_match id w :
  let users := getPotentialRedirectUsers_ (auth (this w)) in
  exists answer,
    userForEvent id w =
      (Normal answer, withTrace (trace w ++ [CallGetPotentialRedirectUsers]) w) /\
    match answer with
    | Some u =>
        exists before after,
          users = before ++ u :: after /\
          redirectEventId_ u = id /\
          forall v, In v before -> redirectEventId_ v <> id
    | None => forall v, In v users -> redirectEventId_ v <> id
    end.
Proof.
  cbv zeta.
  exists (find (fun u => bool_decide (redirectEventId_ u = id))
            (getPotentialRedirectUsers_ (auth (this w)))).
  split; [reflexivity|].
  generalize (getPotentialRedirectUsers_ (auth (this w))) as users.
  induction users as [|v users IH]; cbn.
  - intros v [].
  - destruct (decide (redirectEventId_ v = id)) as [Hv|Hv].
    + rewrite bool_decide_eq_true_2 by exact Hv.
      exists [], users. split; [reflexivity|]. split; [exact Hv|].
      intros x [].
    + rewrite bool_decide_eq_false_2 by exact Hv.
      destruct (find _ users) as [u|].
      * destruct IH as [before [after [Husers [Hu Hbefore]]]].
        exists (v :: before), after. rewrite Husers.
        split; [reflexivity|]. split; [exact Hu|].
        intros x [<-|Hx]; [exact Hv|apply Hbefore; exact Hx].
      * intros x [<-|Hx]; [exact Hv|apply IH; exact Hx].
Qed.

(** X6. The opener of [processPopup]: the host is asked once whether it is
    ready; only if it is not, [initializeAndWait] is called and awaited; the
    popup is opened afterwards, on a ready host.  Handlers and promises are
    not touched. *)
Theorem popupOpener_opens_on_ready_host a provider authType eventId w :
  exists win w',
    popupOpener a provider authType eventId w = (Normal win, w') /\
    callsOf (popupOpener a provider authType eventId) w =
      CallIsInitialized (initialized (host w)) ::
      (if initialized (host w) then []
       else [JobStarted (JobInitialize a); JobCompleted (JobInitialize a)]) ++
      [JobStarted (JobOpenPopup a provider authType eventId);
       JobCompleted (JobOpenPopup a provider authType eventId)] /\
    initialized (host w') = true /\
    this w' = this w /\
    promises w' = promises w.
Proof.
  unfold callsOf. run_flow.
  destruct (initialized (host w)) eqn:Hready; cbn;
    do 2 eexists; (split; [reflexivity|]); cbn;
    rewrite <- ?app_assoc, drop_app_length; cbn; rewrite ?Hready; auto.
Qed.

(** The window handle the opener returns is tagged with the [eventId] of the
    flow; a missing [eventId] and the empty string both give the tag [null]. *)
Lemma popupOpener_tags_window a provider authType eventId w :
  exists win w',
    popupOpener a provider authType eventId w = (Normal win, w') /\
    (associatedEvent win = None <->
       eventId = None \/ eventId = Some EmptyString) /\
    (forall s, associatedEvent win = Some s <->
       eventId = Some s /\ s <> EmptyString).
Proof.
  run_flow.
  destruct (initialized (host w)); cbn;
    do 2 eexists; (split; [reflexivity|]); cbn;
    (split; [apply orAbsent_None|intros s; apply orAbsent_Some]).
Qed.

(** X7. The initializer of [getRedirectResult] asks the host once whether it
    is ready and, only if it is not, calls [initializeAndWait]; it completes
    no job and leaves the readiness of the host as it found it. *)
Theorem redirectInitializer_never_waits a w :
  exists w',
    redirectInitializer a w = (Normal tt, w') /\
    callsOf (redirectInitializer a) w =
      CallIsInitialized (initialized (host w)) ::
      (if initialized (host w) then [] else [JobStarted (JobInitialize a)]) /\
    initialized (host w') = initialized (host w) /\
    inFlight (host w') =
      inFlight (host w) ++
      (if initialized (host w) then [] else [JobInitialize a]) /\
    this w' = this w /\
    promises w' = promises w.
Proof.
  unfold callsOf. run_flow.
  destruct (initialized (host w)) eqn:Hready; cbn;
    eexists; (split; [reflexivity|]); cbn;
    rewrite <- ?app_assoc, drop_app_length; cbn; rewrite ?Hready, ?app_nil_r;
    auto 10.
Qed.

Lemma processPopup_auth a provider authType eventId w :
  auth (this (snd (processPopup a provider authType eventId w))) = a.
Proof. run_flow. destruct (initialized (host w)); reflexivity. Qed.

Lemma getRedirectResult_auth a w :
  auth (this (snd (getRedirectResult a w))) = a.
Proof.
  run_flow.
  destruct (redirectResult (redirectOutcomeHandler (this w))); cbn;
    [reflexivity|].
  destruct (initialized (host w)); reflexivity.
Qed.

(** X8. [processPopup] and [getRedirectResult] both store their [auth]
    argument in the resolver, replacing the one stored before; an event
    delivered afterwards is exchanged with the auth context of the flow that
    was started last, whichever flow the event belongs to. *)
Theorem events_use_auth_of_last_flow a s event w :
  (s = RedirectResult a \/
   exists provider authType eventId, s = StartPopup a provider authType eventId) ->
  AuthEvent.error event = None ->
  AuthEvent.type event = SIGN_IN_VIA_REDIRECT ->
  auth (this (step s w)) = a /\
  exists rt,
    running (step (Deliver event) (step s w)) = running (step s w) ++ [rt] /\
    rtTask rt = signIn /\
    IdpTaskParams.auth (rtParams rt) = a.
Proof.
  intros Hs Herr Ht.
  assert (Hauth : auth (this (step s w)) = a).
  { destruct Hs as [->|[provider [authType [eventId ->]]]]; cbn.
    - apply getRedirectResult_auth.
    - apply processPopup_auth. }
  split; [exact Hauth|].
  generalize dependent (step s w). intros w1 Hauth.
  cbn [step]. rewrite onEvent_no_error by exact Herr. rewrite Ht.
  run_steps. rewrite Ht. cbn.
  eexists. split; [reflexivity|]. cbn. auto.
Qed.

(** * The dependency scan *)

Module GenerateDepsFacts.
Import GenerateDeps.

Lemma stripPrefix_Some p s r : stripPrefix p s = Some r <-> s = p +:+ r.
Proof.
  revert s. induction p as [|a p IH]; intros s; cbn.
  - change (EmptyString +:+ r) with r.
    split; [intros [= ->]|intros ->]; reflexivity.
  - change (String a p +:+ r) with (String a (p +:+ r)).
    destruct s as [|b s]; [split; discriminate|].
    destruct (Ascii.eqb_spec a b) as [<-|Hne].
    + rewrite IH. split; [intros ->; reflexivity|].
      intros [= ->]. reflexivity.
    + split; [discriminate|]. intros [= -> _]. contradiction.
Qed.

Lemma stripPrefix_app p r : stripPrefix p (p +:+ r) = Some r.
Proof. apply stripPrefix_Some. reflexivity. Qed.

Lemma takeWhile_app f name rest :
  allChars f name = true -> stopsAt f rest = true ->
  takeWhile f (name +:+ rest) = name.
Proof.
  intros Hall Hstop. induction name as [|c name IH].
  - change (EmptyString +:+ rest) with rest.
    destruct rest as [|c rest]; [reflexivity|]. cbn in *.
    destruct (f c); [discriminate|reflexivity].
  - change (String c name +:+ rest) with (String c (name +:+ rest)).
    cbn in *. apply andb_true_iff in Hall as [Hc Hall].
    rewrite Hc, IH by exact Hall. reflexivity.
Qed.

Lemma takeWhile_split f s :
  exists rest,
    s = takeWhile f s +:+ rest /\
    allChars f (takeWhile f s) = true /\
    stopsAt f rest = true.
Proof.
  induction s as [|c s [rest [Hs [Hall Hstop]]]]; cbn.
  - exists EmptyString. auto.
  - destruct (f c) eqn:Hc.
    + exists rest. cbn. rewrite Hc, Hall. split; [|auto].
      change (String c (takeWhile f s) +:+ rest)
        with (String c (takeWhile f s +:+ rest)).
      f_equal. exact Hs.
    + exists (String c s). cbn. rewrite Hc. auto.
Qed.

Lemma allChars_takeWhile f s : allChars f (takeWhile f s) = true.
Proof. destruct (takeWhile_split f s) as [rest [_ [Hall _]]]. exact Hall. Qed.

(** X9. A line yields a dependency exactly when it starts, in its first
    column, with [function] or [class] and one space, optionally after
    [async ]; the name is the longest run of word characters and [$] that
    follows, which is empty for an anonymous [function (]. *)
Theorem matchIdentifier_characterised line name :
  matchIdentifier line = Some name <->
  exists (async : bool) keyword rest,
    (keyword = "function" \/ keyword = "class") /\
    line =
      (if async then "async " else EmptyString) +:+
      keyword +:+ " " +:+ name +:+ rest /\
    allChars isIdentifierChar name = true /\
    stopsAt isIdentifierChar rest = true.
Proof.
  split.
  - unfold matchIdentifier. intros Hmatch.
    assert (Hkeyword : forall body,
      match stripPrefix "function " body with
      | Some afterKeyword => Some (takeWhile isIdentifierChar afterKeyword)
      | None =>
          match stripPrefix "class " body with
          | Some afterKeyword => Some (takeWhile isIdentifierChar afterKeyword)
          | None => None
          end
      end = Some name ->
      exists keyword rest,
        (keyword = "function" \/ keyword = "class") /\
        body = keyword +:+ " " +:+ name +:+ rest /\
        allChars isIdentifierChar name = true /\
        stopsAt isIdentifierChar rest = true).
    { intros body Hbody.
      destruct (stripPrefix "function " body) as [after|] eqn:Hf.
      - apply stripPrefix_Some in Hf. injection Hbody as <-.
        destruct (takeWhile_split isIdentifierChar after)
          as [rest [Hafter [Hall Hstop]]].
        exists "function", rest. split; [auto|].
        split; [|auto]. rewrite Hf, Hafter at 1. reflexivity.
      - destruct (stripPrefix "class " body) as [after|] eqn:Hc;
          [|discriminate].
        apply stripPrefix_Some in Hc. injection Hbody as <-.
        destruct (takeWhile_split isIdentifierChar after)
          as [rest [Hafter [Hall Hstop]]].
        exists "class", rest. split; [auto|].
        split; [|auto]. rewrite Hc, Hafter at 1. reflexivity. }
    destruct (stripPrefix "async " line) as [afterAsync|] eqn:Ha.
    + apply stripPrefix_Some in Ha.
      destruct (Hkeyword _ Hmatch) as [keyword [rest [Hk [Hbody Hrest]]]].
      exists true, keyword, rest. split; [exact Hk|]. split; [|exact Hrest].
      rewrite Ha, Hbody. reflexivity.
    + destruct (Hkeyword _ Hmatch) as [keyword [rest [Hk [Hbody Hrest]]]].
      exists false, keyword, rest. auto.
  - intros [async [keyword [rest [Hk [-> [Hall Hstop]]]]]].
    unfold matchIdentifier.
    destruct async, Hk as [->| ->]; cbv iota.
    + rewrite stripPrefix_app.
      change ("function" +:+ " " +:+ name +:+ rest)
        with ("function " +:+ name +:+ rest).
      rewrite stripPrefix_app, takeWhile_app by assumption. reflexivity.
    + rewrite stripPrefix_app.
      change ("class" +:+ " " +:+ name +:+ rest)
        with ("class " +:+ name +:+ rest).
      change (stripPrefix "function " ("class " +:+ name +:+ rest))
        with (@None string).
      rewrite stripPrefix_app, takeWhile_app by assumption. reflexivity.
    + change (EmptyString +:+ "function" +:+ " " +:+ name +:+ rest)
        with ("function " +:+ name +:+ rest).
      change (stripPrefix "async " ("function " +:+ name +:+ rest))
        with (@None string).
      cbv beta iota zeta.
      rewrite stripPrefix_app, takeWhile_app by assumption. reflexivity.
    + change (EmptyString +:+ "class" +:+ " " +:+ name +:+ rest)
        with ("class " +:+ name +:+ rest).
      change (stripPrefix "async " ("class " +:+ name +:+ rest))
        with (@None string).
      cbv beta iota zeta.
      change (stripPrefix "function " ("class " +:+ name +:+ rest))
        with (@None string).
      rewrite stripPrefix_app, takeWhile_app by assumption. reflexivity.
Qed.

Lemma length_omap_le {A B} (f : A -> option B) (l : list A) :
  length (omap f l) <= length l.
Proof.
  induction l as [|x l IH]; cbn; [lia|].
  destruct (f x); cbn; lia.
Qed.

(** X10. The list [extractDependencies] computes from the text of the bundle
    is in ascending code-unit order and holds one entry for every line that
    declares a name, duplicates included: a name is listed exactly when some
    line declares it, every listed name is made of word characters and [$],
    and there are at most as many entries as lines. *)
Theorem dependenciesOf_sorted_declarations content :
  Sorted String.le (dependenciesOf content) /\
  dependenciesOf content ≡ₚ omap matchIdentifier (splitLines content) /\
  (forall name,
     name ∈ dependenciesOf content <->
     exists line, line ∈ splitLines content /\ matchIdentifier line = Some name) /\
  (forall name,
     name ∈ dependenciesOf content -> allChars isIdentifierChar name = true) /\
  length (dependenciesOf content) <= length (splitLines content).
Proof.
  unfold dependenciesOf.
  pose proof (merge_sort_Permutation String.le
                (omap matchIdentifier (splitLines content))) as Hperm.
  split; [apply Sorted_merge_sort; apply _|].
  split; [exact Hperm|].
  assert (Hin : forall name,
    name ∈ merge_sort String.le (omap matchIdentifier (splitLines content)) <->
    exists line, line ∈ splitLines content /\ matchIdentifier line = Some name).
  { intros name. rewrite Hperm. apply list_elem_of_omap. }
  split; [exact Hin|]. split.
  - intros name Hname. apply Hin in Hname as [line [_ Hline]].
    apply matchIdentifier_characterised in Hline
      as [async [keyword [rest [_ [_ [Hall _]]]]]].
    exact Hall.
  - rewrite (Permutation_length Hperm). apply length_omap_le.
Qed.

(** X11. The result does not depend on the order of the lines of the bundle,
    nor on how the sort proceeds: any ascending arrangement of the declared
    names is the list returned. *)
Theorem dependenciesOf_canonical content names :
  Sorted String.le names ->
  names ≡ₚ omap matchIdentifier (splitLines content) ->
  names = dependenciesOf content.
Proof.
  intros Hsorted Hperm. unfold dependenciesOf.
  apply (Sorted_unique String.le); [exact Hsorted| |].
  - apply Sorted_merge_sort. apply _.
  - rewrite merge_sort_Permutation. exact Hperm.
Qed.

Lemma dependenciesOf_line_order content1 content2 :
  splitLines content1 ≡ₚ splitLines content2 ->
  dependenciesOf content1 = dependenciesOf content2.
Proof.
  intros Hperm. apply dependenciesOf_canonical.
  - apply Sorted_merge_sort. apply _.
  - unfold dependenciesOf. rewrite merge_sort_Permutation, Hperm. reflexivity.
Qed.

End GenerateDepsFacts.

(** * The lite snapshots *)

Module SnapshotFacts.
Import Snapshot.

Lemma arrayForEach_app {A S E} (f : A -> S -> E + S) l1 l2 s :
  arrayForEach f (l1 ++ l2) s =
  match arrayForEach f l1 s with
  | inl e => inl e
  | inr s1 => arrayForEach f l2 s1
  end.
Proof.
  revert s. induction l1 as [|x l1 IH]; intros s; cbn; [reflexivity|].
  destruct (f x s); [reflexivity|apply IH].
Qed.

Lemma arrayForEach_total {A S E} (g : A -> S -> S) l s :
  arrayForEach (E := E) (fun x s => inr (g x s)) l s =
  inr (foldl (fun s x => g x s) s l).
Proof. revert s. induction l as [|x l IH]; intros s; cbn; auto. Qed.

Lemma foldl_push {A B} (f : A -> B) (l : list A) (acc : list B) :
  foldl (fun result x => result ++ [f x]) acc l = acc ++ map f l.
Proof.
  revert acc. induction l as [|x l IH]; intros acc; cbn.
  - rewrite app_nil_r. reflexivity.
  - rewrite IH, <- app_assoc. reflexivity.
Qed.

(** X12. [docs] holds one snapshot per document of the query result, in the
    order of the documents; each of them exists and carries the key of its
    document and the Firestore instance of the query snapshot, and there are
    [size] of them. *)
Theorem docs_one_snapshot_per_document {K P Q E} (q : QuerySnapshot K P Q) :
  docs (E := E) q = inr (map (convertToDocumentImpl q) (_docs q)) /\
  length (map (convertToDocumentImpl q) (_docs q)) = size q /\
  map _key (map (convertToDocumentImpl q) (_docs q)) = map key (_docs q) /\
  Forall (fun s => exists_ s = true /\
                   _firestore s = querySnapshotFirestore q)
    (map (convertToDocumentImpl q) (_docs q)).
Proof.
  split; [|split; [|split]].
  - unfold docs, forEach.
    rewrite (arrayForEach_total
               (fun doc result => result ++ [convertToDocumentImpl q doc])).
    rewrite (foldl_push (convertToDocumentImpl q)). reflexivity.
  - unfold size. apply length_map.
  - rewrite map_map. reflexivity.
  - induction (_docs q) as [|doc l IH]; cbn; constructor; auto.
Qed.

(** X13. [empty] is true exactly when [size] is 0, and exactly when [docs] is
    the empty array. *)
Theorem empty_iff_no_documents {K P Q E} (q : QuerySnapshot K P Q) :
  (empty q = true <-> size q = 0) /\
  (empty q = true <-> docs (E := E) q = inr []).
Proof.
  unfold empty, size. rewrite bool_decide_eq_true. split; [reflexivity|].
  destruct (docs_one_snapshot_per_document (E := E) q) as [-> _].
  destruct (_docs q) as [|doc l]; cbn; split; auto; try discriminate.
Qed.

(** With a callback that does not throw, [forEach] calls it once per
    document, in the order of the documents, each time with the same
    [thisArg] and with the snapshot of that document. *)
Lemma forEach_visits_in_order {K P Q S E This} (q : QuerySnapshot K P Q)
    (g : This -> DocumentSnapshot K P -> S -> S) (thisArg : This) (s : S) :
  forEach (E := E) q (fun this doc s => inr (g this doc s)) thisArg s =
  inr (foldl (fun s doc => g thisArg (convertToDocumentImpl q doc) s) s
         (_docs q)).
Proof.
  unfold forEach.
  apply (arrayForEach_total
           (fun doc s => g thisArg (convertToDocumentImpl q doc) s)).
Qed.

(** X14. A callback that throws ends [forEach]: when the callback has gone
    through the documents [before] and throws [e] on the next one, [forEach]
    throws [e] and the documents after it are never visited, whatever they
    are. *)
Theorem forEach_stops_at_throw {K P Q S E This} (q : QuerySnapshot K P Q)
    (callback : This -> DocumentSnapshot K P -> S -> E + S) (thisArg : This)
    (before after : list (Document K P)) (d : Document K P) (s s1 : S) (e : E) :
  _docs q = before ++ d :: after ->
  arrayForEach (fun doc => callback thisArg (convertToDocumentImpl q doc))
    before s = inr s1 ->
  callback thisArg (convertToDocumentImpl q d) s1 = inl e ->
  forEach q callback thisArg s = inl e.
Proof.
  intros Hdocs Hbefore Hthrow. unfold forEach.
  rewrite Hdocs, arrayForEach_app, Hbefore. cbn. rewrite Hthrow. reflexivity.
Qed.

(** X15. [data()] is [undefined] exactly when the document does not exist; in
    that case no [UserDataWriter] is made.  For a document that exists it is
    what [convertValue] gives for the proto of the document, from a writer
    made for the database of the snapshot with [timestampsInSnapshots] off
    and server timestamps as [none]. *)
Theorem data_undefined_iff_missing {K P T E}
    (newUserDataWriter :
       string -> bool -> string -> (K -> DocumentReference K) -> P -> E + T)
    (s : DocumentSnapshot K P) :
  (data newUserDataWriter s = inr None <-> exists_ s = false) /\
  (forall document,
     _document s = Some document ->
     data newUserDataWriter s =
       match newUserDataWriter (_databaseId (_firestore s)) false "none"
               (fun key => Build_DocumentReference key (_firestore s))
               (toProto document) with
       | inl e => inl e
       | inr value => inr (Some value)
       end).
Proof.
  unfold data, exists_. split.
  - destruct (_document s) as [document|]; [|split; reflexivity].
    destruct (newUserDataWriter _ _ _ _ _); split; discriminate.
  - intros document ->. reflexivity.
Qed.

End SnapshotFacts.

(** * Private constructors *)

Module PublicWrappersFacts.
Import PublicWrappers.

(** X16. The constructor [makeConstructorPrivate] returns always throws an
    [INVALID_ARGUMENT] error.  Its message is [This constructor is private.]
    alone exactly when the optional message is missing or empty; otherwise
    it is that sentence, a space and the optional message, so that different
    optional messages give different errors. *)
Theorem publicConstructorError_message optionalMessage :
  code (publicConstructorError optionalMessage) = INVALID_ARGUMENT /\
  (message (publicConstructorError optionalMessage) =
     "This constructor is private." <->
   optionalMessage = None \/ optionalMessage = Some EmptyString) /\
  (forall hint,
     optionalMessage = Some hint -> hint <> EmptyString ->
     message (publicConstructorError optionalMessage) =
       "This constructor is private. " +:+ hint) /\
  (forall hint other,
     optionalMessage = Some hint -> hint <> EmptyString ->
     other <> EmptyString ->
     publicConstructorError (Some other) =
       publicConstructorError optionalMessage ->
     other = hint).
Proof.
  assert (Hmessage : forall c rest,
    message (publicConstructorError (Some (String c rest))) =
    "This constructor is private. " +:+ String c rest) by reflexivity.
  split; [reflexivity|]. split; [|split].
  - destruct optionalMessage as [[|c rest]|]; cbn [publicConstructorError].
    + split; auto.
    + rewrite Hmessage. split.
      * intros H.
        change ("This constructor is private." +:+ (" " +:+ String c rest) =
                "This constructor is private." +:+ EmptyString) in H.
        apply (inj (String.app _)) in H. discriminate.
      * intros [H|H]; discriminate.
    + split; auto.
  - intros hint -> Hne. destruct hint as [|c rest]; [contradiction|].
    apply Hmessage.
  - intros hint other -> Hhint Hother Heq.
    destruct hint as [|c rest]; [contradiction|].
    destruct other as [|c' rest']; [contradiction|].
    apply (f_equal message) in Heq. rewrite !Hmessage in Heq.
    apply (inj (String.app _)) in Heq. exact Heq.
Qed.

End PublicWrappersFacts.

(** * The further statements at sample inputs *)

Lemma execIdpTask_without_handler_witness :
  let event := sampleEvent UNKNOWN (Some "abc") None in
  AuthEvent.type event = UNKNOWN /\
  exists w',
    detached (execIdpTask_start event signIn None) popupStarted =
      (Normal tt, w') /\
    running w' = running popupStarted /\
    unhandled w' = unhandled popupStarted ++ [AuthError INTERNAL_ERROR "TODO"].
Proof.
  cbv zeta. split; [reflexivity|].
  destruct (execIdpTask_without_handler
              (sampleEvent UNKNOWN (Some "abc") None) signIn None popupStarted
              eq_refl) as [w' [Hrun [_ [Hrunning [_ [_ Hunhandled]]]]]].
  exists w'. auto.
Defined.

Lemma execIdpTask_task_parameters_witness :
  let event := sampleEvent SIGN_IN_VIA_REDIRECT None None in
  AuthEvent.type event <> UNKNOWN /\
  exists w' rt,
    detached (execIdpTask_start event signIn None) popupStarted =
      (Normal tt, w') /\
    running w' = running popupStarted ++ [rt] /\
    IdpTaskParams.tenantId (rtParams rt) = None.
Proof.
  cbv zeta. split; [discriminate|].
  destruct (execIdpTask_task_parameters
              (sampleEvent SIGN_IN_VIA_REDIRECT None None) signIn None
              popupStarted ltac:(discriminate))
    as [w' [rt [Hrun [Hrunning [_ [_ [_ [_ [_ [Htenant _]]]]]]]]]].
  exists w', rt. split; [exact Hrun|]. split; [exact Hrunning|].
  apply Htenant. left. reflexivity.
Defined.

Lemma events_use_auth_of_last_flow_witness :
  let other := {| appName := "other"; getPotentialRedirectUsers_ := [] |} in
  let event := sampleEvent SIGN_IN_VIA_REDIRECT None None in
  (RedirectResult other = RedirectResult other \/
   exists provider authType eventId,
     RedirectResult other = StartPopup other provider authType eventId) /\
  AuthEvent.error event = None /\
  AuthEvent.type event = SIGN_IN_VIA_REDIRECT /\
  auth (this popupStarted) = sampleAuth /\
  auth (this (step (RedirectResult other) popupStarted)) = other.
Proof.
  cbv zeta. split; [left; reflexivity|].
  split; [reflexivity|]. split; [reflexivity|].
  split; [vm_compute; reflexivity|].
  destruct (events_use_auth_of_last_flow
              {| appName := "other"; getPotentialRedirectUsers_ := [] |}
              (RedirectResult
                 {| appName := "other"; getPotentialRedirectUsers_ := [] |})
              (sampleEvent SIGN_IN_VIA_REDIRECT None None) popupStarted
              (or_introl eq_refl) eq_refl eq_refl) as [Hauth _].
  exact Hauth.
Defined.

Lemma dependenciesOf_canonical_witness :
  Sorted String.le ["Alpha"; "zeta"] /\
  ["Alpha"; "zeta"] ≡ₚ
    omap GenerateDeps.matchIdentifier (GenerateDeps.splitLines sampleBundle) /\
  ["Alpha"; "zeta"] = GenerateDeps.dependenciesOf sampleBundle.
Proof.
  assert (Hsorted : Sorted String.le ["Alpha"; "zeta"]).
  { repeat constructor. }
  assert (Hperm : ["Alpha"; "zeta"] ≡ₚ
            omap GenerateDeps.matchIdentifier
              (GenerateDeps.splitLines sampleBundle)).
  { vm_compute. apply perm_swap. }
  split; [exact Hsorted|]. split; [exact Hperm|].
  exact (GenerateDepsFacts.dependenciesOf_canonical sampleBundle
           ["Alpha"; "zeta"] Hsorted Hperm).
Defined.

Lemma forEach_stops_at_throw_witness :
  let before := [{| Snapshot.key := "rooms/a"; Snapshot.toProto := 1 |}] in
  let d := {| Snapshot.key := "rooms/b"; Snapshot.toProto := 2 |} in
  let after := [{| Snapshot.key := "rooms/c"; Snapshot.toProto := 3 |}] in
  Snapshot._docs sampleQuerySnapshot = before ++ d :: after /\
  Snapshot.arrayForEach
    (fun doc => sampleCallback tt
                  (Snapshot.convertToDocumentImpl sampleQuerySnapshot doc))
    before [] = inr ["rooms/a"] /\
  sampleCallback tt (Snapshot.convertToDocumentImpl sampleQuerySnapshot d)
    ["rooms/a"] = inl "stop" /\
  Snapshot.forEach sampleQuerySnapshot sampleCallback tt [] = inl "stop".
Proof.
  cbv zeta. split; [reflexivity|]. split; [reflexivity|].
  split; [reflexivity|].
  apply (SnapshotFacts.forEach_stops_at_throw sampleQuerySnapshot
           sampleCallback tt
           [{| Snapshot.key := "rooms/a"; Snapshot.toProto := 1 |}]
           [{| Snapshot.key := "rooms/c"; Snapshot.toProto := 3 |}]
           {| Snapshot.key := "rooms/b"; Snapshot.toProto := 2 |}
           [] ["rooms/a"] "stop"); reflexivity.
Defined.

Lemma data_undefined_iff_missing_witness :
  let doc := {| Snapshot.key := "rooms/a"; Snapshot.toProto := 1 |} in
  let s := Snapshot.convertToDocumentImpl sampleQuerySnapshot doc in
  Snapshot._document s = Some doc /\
  Snapshot.data sampleWriter s = inr (Some 1).
Proof.
  cbv zeta. split; [reflexivity|].
  destruct (SnapshotFacts.data_undefined_iff_missing sampleWriter
              (Snapshot.convertToDocumentImpl sampleQuerySnapshot
                 {| Snapshot.key := "rooms/a"; Snapshot.toProto := 1 |}))
    as [_ Hdata].
  exact (Hdata _ eq_refl).
Defined.

Lemma publicConstructorError_message_witness :
  let hint := "Use firebase.firestore() instead." in
  Some hint = Some hint /\
  hint <> EmptyString /\
  PublicWrappers.message (PublicWrappers.publicConstructorError (Some hint)) =
    "This constructor is private. " +:+ hint.
Proof.
  cbv zeta. split; [reflexivity|]. split; [discriminate|].
  destruct (PublicWrappersFacts.publicConstructorError_message
              (Some "Use firebase.firestore() instead."))
    as [_ [_ [Hmessage _]]].
  apply Hmessage; [reflexivity|discriminate].
Defined.

(** * The resolver before its first flow *)

Lemma initialWorld_constructed a :
  initialWorld a =
  storeAuth a (constructed {| initialized := false; inFlight := [] |}).
Proof. reflexivity. Qed.



(** Both flows leave the resolver with the auth context they were given. *)
Lemma flows_store_auth a i :
  (forall provider authType eventId,
     exists w,
       snd (processPopupAt a provider authType eventId i) = InFlow w /\
       auth (this w) = a) /\
  (exists w,
     snd (getRedirectResultAt a i) = InFlow w /\ auth (this w) = a).
Proof.
  split.
  - intros provider authType eventId. unfold processPopupAt.
    pose proof (processPopup_auth a provider authType eventId (enterFlow a i))
      as Hauth.
    destruct (processPopup a provider authType eventId (enterFlow a i))
      as [r w']. eauto.
  - unfold getRedirectResultAt.
    pose proof (getRedirectResult_auth a (enterFlow a i)) as Hauth.
    destruct (getRedirectResult a (enterFlow a i)) as [r w']. eauto.
Qed.



(** * The readiness gate of the two flows *)

(** C7 as it is written fails on the redirect side: with a host that is not
    ready, the initializer of [getRedirectResult] starts [initializeAndWait]
    and returns without its completion. *)
Lemma redirectInitializer_does_not_await :
  ~ awaitsInitialization (redirectInitializer sampleAuth)
      (initialWorld sampleAuth).
Proof.
  intros Hawaits. specialize (Hawaits sampleAuth).
  vm_compute in Hawaits.
  destruct Hawaits as [Hc|[Hc|[]]]; [right; left; reflexivity| |];
    discriminate Hc.
Qed.

(** C7, amended.  With a host that is not ready, the opener of [processPopup]
    awaits [initializeAndWait] and opens the popup after its completion.  The
    initializer of [getRedirectResult] starts [initializeAndWait] without
    awaiting it, and [getRedirectResult] makes no other call to the host: it
    opens no popup, starts no redirect and completes no job, so that no
    external action of it precedes the completion of the initialization. *)
Theorem popup_awaits_and_redirect_starts_initialization
    a provider authType eventId w :
  initialized (host w) = false ->
  callsOf (popupOpener a provider authType eventId) w =
    [CallIsInitialized false;
     JobStarted (JobInitialize a);
     JobCompleted (JobInitialize a);
     JobStarted (JobOpenPopup a provider authType eventId);
     JobCompleted (JobOpenPopup a provider authType eventId)] /\
  awaitsInitialization (popupOpener a provider authType eventId) w /\
  callsOf (redirectInitializer a) w =
    [CallIsInitialized false; JobStarted (JobInitialize a)] /\
  ~ awaitsInitialization (redirectInitializer a) w /\
  (forall c, In c (callsOf (getRedirectResult a) w) ->
     c = CallGetRedirectPromiseOrInit \/
     c = CallIsInitialized false \/
     c = JobStarted (JobInitialize a)).
Proof.
  intros Hready.
  assert (Hopener : callsOf (popupOpener a provider authType eventId) w =
    [CallIsInitialized false;
     JobStarted (JobInitialize a);
     JobCompleted (JobInitialize a);
     JobStarted (JobOpenPopup a provider authType eventId);
     JobCompleted (JobOpenPopup a provider authType eventId)]).
  { unfold callsOf. run_flow. rewrite Hready. cbn.
    rewrite <- ?app_assoc. apply drop_app_length. }
  assert (Hinitializer : callsOf (redirectInitializer a) w =
    [CallIsInitialized false; JobStarted (JobInitialize a)]).
  { unfold callsOf. run_flow. rewrite Hready. cbn.
    rewrite <- ?app_assoc. apply drop_app_length. }
  split; [exact Hopener|]. split; [|split; [exact Hinitializer|split]].
  - intros a' Hstarted. rewrite Hopener in *. cbn in *.
    destruct Hstarted as [Hc|[Hc|[Hc|[Hc|[Hc|[]]]]]]; try discriminate Hc.
    injection Hc as <-. right. right. left. reflexivity.
  - intros Hawaits. specialize (Hawaits a). rewrite Hinitializer in Hawaits.
    destruct Hawaits as [Hc|[Hc|[]]]; [right; left; reflexivity| |];
      discriminate Hc.
  - intros c. unfold callsOf. run_flow.
    destruct (redirectResult (redirectOutcomeHandler (this w))); cbn;
      rewrite ?Hready; cbn; rewrite <- ?app_assoc, drop_app_length; cbn;
      intuition.
Qed.


Lemma popup_awaits_and_redirect_starts_initialization_witness :
  initialized (host (initialWorld sampleAuth)) = false /\
  awaitsInitialization
    (popupOpener sampleAuth sampleProvider SIGN_IN_VIA_POPUP (Some "abc"))
    (initialWorld sampleAuth) /\
  callsOf (redirectInitializer sampleAuth) (initialWorld sampleAuth) =
    [CallIsInitialized false; JobStarted (JobInitialize sampleAuth)].
Proof.
  split; [reflexivity|].
  destruct (popup_awaits_and_redirect_starts_initialization sampleAuth
              sampleProvider SIGN_IN_VIA_POPUP (Some "abc")
              (initialWorld sampleAuth) eq_refl)
    as [_ [Hawaits [Hinitializer _]]].
  split; assumption.
Defined.
